(** * Fixed-pattern location in stringi: a shallow embedding

    The development follows [src/stri_search_fixed_locate.cpp]
    ([stri__locate_firstlast_fixed], [stri_locate_first_fixed],
    [stri_locate_last_fixed], [stri_locate_all_fixed]) and the two list
    containers of [src/stri_container_listutf8.h] and
    [src/stri_container_listint.h].

    R integers ([int], [R_len_t]) are modelled by [Z]; every value stored in
    a result matrix is a sentinel or is bounded by the byte length of a
    subject, which R keeps below 2^31, so no operation of the modelled code
    leaves the range of [int].  Byte buffers are [list byte]; a missing
    string ([NA_STRING]) is [None]. *)

From Stdlib Require Import Init.Byte Strings.Byte Strings.String.
From Stdlib Require Import List ZArith Lia Bool Arith PeanoNat.
Import ListNotations.

Definition bytes := list byte.

(** ** Constants of the host runtime *)

(** [NA_INTEGER] is R's missing integer, the least [int]. *)
Definition NA_INTEGER : Z := (-2147483648)%Z.

(** [USEARCH_DONE] is ICU's "no (further) match" marker. *)
Definition USEARCH_DONE : Z := (-1)%Z.

(** ** Outcomes of a call

    A call of the C++ code returns a value, leaves through a
    [StriException], or has no defined behaviour (a read outside an array,
    a null reference, a remainder by zero).  The exceptions are sorted by
    the error kinds of the specification; the two raised by the containers
    carry the message of the source. *)

Inductive StriException : Type :=
| IndexOutOfBounds (msg : string)
| AccessOfNA (msg : string)
| RecyclingIncompatible.

Inductive outcome (A : Type) : Type :=
| Returns (a : A)
| Throws (e : StriException)
| Undefined.

Arguments Returns {A} a.
Arguments Throws {A} e.
Arguments Undefined {A}.

Definition bind {A B : Type} (o : outcome A) (k : A -> outcome B) : outcome B :=
  match o with
  | Returns a => k a
  | Throws e => Throws e
  | Undefined => Undefined
  end.

Notation "x <- c1 ;; c2" := (bind c1 (fun x => c2))
  (at level 61, c1 at next level, right associativity).

(** ** UTF-8 framing *)

Definition byte_val (b : byte) : Z := Z.of_N (Byte.to_N b).

(** A trail (continuation) byte has the bit pattern [10xxxxxx]. *)
Definition is_trail (b : byte) : bool :=
  (Z.land (byte_val b) 192 =? 128)%Z.

(** Number of bytes of the code point that a lead byte opens. *)
Definition lead_width (b : byte) : nat :=
  if (byte_val b <? 128)%Z then 1
  else if (byte_val b <? 224)%Z then 2
  else if (byte_val b <? 240)%Z then 3
  else 4.

(** One encoded code point: a lead byte followed by as many trail bytes as
    the lead byte announces.  Every code point of a valid UTF-8 string has
    this shape. *)
Definition utf8_char (c : bytes) : bool :=
  match c with
  | [] => false
  | l :: ts =>
      negb (is_trail l) && (length c =? lead_width l) && forallb is_trail ts
  end.

(** [utf8_ok pending s]: [s] is [pending] trail bytes followed by whole
    encoded code points. *)
Fixpoint utf8_ok (pending : nat) (s : bytes) : bool :=
  match s with
  | [] => pending =? 0
  | b :: r =>
      match pending with
      | O => negb (is_trail b) && utf8_ok (lead_width b - 1) r
      | S k => is_trail b && utf8_ok k r
      end
  end.

Definition is_utf8 (s : bytes) : bool := utf8_ok 0 s.

(** A string argument as prepared for the search: valid UTF-8 or [NA]. *)
Definition is_utf8_or_NA (s : option bytes) : bool :=
  match s with
  | None => true
  | Some b => is_utf8 b
  end.

(** ** Character vectors *)

(** Modelled from the spec: the class [StriContainerUTF8] and its
    subclasses [StriContainerUTF8_indexable] and [StriContainerByteSearch]
    are not among the sources.  Sections 4.1 and 4.3: the i-th vectorised
    element of a sequence of length [n] is element [i mod n]; a string is a
    byte buffer or [NA]. *)
Record StriContainerUTF8 : Type := {
  str_data : list (option bytes);
  str_nrecycle : nat
}.

(** Modelled from the spec: [get(i)] and [isNA(i)] of these classes, in
    one; [None] is the [NA] string. *)
Definition str_get (c : StriContainerUTF8) (i : nat) : option bytes :=
  nth (i mod length (str_data c)) (str_data c) None.

(** ** The list containers of [stri_container_listutf8.h] and
       [stri_container_listint.h]

    Both classes derive from [StriContainerBase], which holds [n], the
    number of stored elements, and [nrecycle], the vectorised length.  The
    macro [NDEBUG] is a parameter of the model: [ndebug = false] is a debug
    build, where the guards are compiled in. *)

Module Container.

Section ListContainer.

(** The element slot: for [StriContainerListUTF8] a pointer
    [StriContainerUTF8*], for [StriContainerListInt] an [IntVec]. *)
Variable slot : Type.
(** What lookup yields: the pointee or the [IntVec] itself. *)
Variable elem : Type.
(** [data[k] == NULL], respectively [data[k].isNA()]. *)
Variable slot_isNA : slot -> bool.
(** [*(data[k])], respectively [data[k]]; a null pointer has no pointee. *)
Variable slot_deref : slot -> outcome elem.
Variable class_name : string.

Record container : Type := {
  n : Z;
  nrecycle : Z;
  data : list slot
}.

(** What the constructors establish: [data] has [n] slots, and a container
    with a positive vectorised length stores at least one element. *)
Definition wf (c : container) : Prop :=
  Z.of_nat (length (data c)) = n c /\ (0 < nrecycle c -> 0 < n c)%Z.

(** The indices that the guards of a debug build let through. *)
Definition in_range (c : container) (i : Z) : Prop :=
  (0 <= i < nrecycle c)%Z.

(** [data[i%n]]: C++ remainder truncates towards zero and is undefined
    for a zero divisor; an index outside the array is an undefined read. *)
Definition data_at (c : container) (i : Z) : outcome slot :=
  if (n c =? 0)%Z then Undefined
  else
    let k := Z.rem i (n c) in
    if (k <? 0)%Z then Undefined
    else match nth_error (data c) (Z.to_nat k) with
         | Some s => Returns s
         | None => Undefined
         end.

Definition isNA (ndebug : bool) (c : container) (i : Z) : outcome bool :=
  if negb ndebug && ((i <? 0)%Z || (nrecycle c <=? i)%Z)
  then Throws (IndexOutOfBounds (class_name ++ "::isNA(): INDEX OUT OF BOUNDS"))
  else
    s <- data_at c i ;;
    Returns (slot_isNA s).

Definition get (ndebug : bool) (c : container) (i : Z) : outcome elem :=
  if negb ndebug && ((i <? 0)%Z || (nrecycle c <=? i)%Z)
  then Throws (IndexOutOfBounds (class_name ++ "::get(): INDEX OUT OF BOUNDS"))
  else
    s <- data_at c i ;;
    if negb ndebug && slot_isNA s
    then Throws (AccessOfNA (class_name ++ "::get(): isNA"))
    else slot_deref s.

End ListContainer.

Arguments n {slot} c.
Arguments nrecycle {slot} c.
Arguments data {slot} c.
Arguments wf {slot} c.
Arguments in_range {slot} c i.
Arguments data_at {slot} c i.
Arguments isNA {slot} slot_isNA class_name%_string ndebug c i.
Arguments get {slot elem} slot_isNA slot_deref class_name%_string ndebug c i.

End Container.

(** [StriContainerListUTF8]: [data] is an array of pointers to
    [StriContainerUTF8] objects, [NULL] for a missing list element. *)
Module StriContainerListUTF8.

Definition slot_isNA (p : option StriContainerUTF8) : bool :=
  match p with
  | None => true
  | Some _ => false
  end.

Definition slot_deref (p : option StriContainerUTF8)
  : outcome StriContainerUTF8 :=
  match p with
  | None => Undefined
  | Some e => Returns e
  end.

Definition container : Type := Container.container (option StriContainerUTF8).

Definition isNA : bool -> container -> Z -> outcome bool :=
  Container.isNA slot_isNA "StriContainerListUTF8".

Definition get : bool -> container -> Z -> outcome StriContainerUTF8 :=
  Container.get slot_isNA slot_deref "StriContainerListUTF8".

End StriContainerListUTF8.

(** [StriContainerListInt]: [data] is an array of [IntVec] objects, each
    answering [isNA()].  The class [IntVec] and its [isNA] are parameters. *)
Module StriContainerListInt.

Section WithElement.

Variable IntVec : Type.
Variable IntVec_isNA : IntVec -> bool.

Definition container : Type := Container.container IntVec.

Definition isNA : bool -> container -> Z -> outcome bool :=
  Container.isNA IntVec_isNA "StriContainerListInt".

Definition get : bool -> container -> Z -> outcome IntVec :=
  Container.get IntVec_isNA (@Returns IntVec) "StriContainerListInt".

End WithElement.

End StriContainerListInt.

(** ** Recycling *)

(** Modelled from the spec: [stri__recycling_rule] is called by the search
    functions but is not among the sources.  Section 4.1: if a length is 0
    (and zero lengths are to be respected) the vectorised length is 0;
    otherwise it is the greatest length, and a nonzero length that does not
    divide it makes the call fail with [RecyclingIncompatible]. *)
Definition stri__recycling_rule (require_nonzero : bool) (lengths : list nat)
  : outcome nat :=
  if require_nonzero && existsb (fun len => len =? 0) lengths then Returns 0
  else
    let L := fold_right Nat.max 0 lengths in
    if forallb (fun len => (len =? 0) || (L mod len =? 0)) lengths
    then Returns L
    else Throws RecyclingIncompatible.

(** ** The fixed-pattern matcher *)

(** Modelled from the spec: the options of a search (section 6).  Only
    [overlap_allowed] is kept: the specification describes the matcher as
    an exact byte search and says nothing on how a case-insensitive
    comparison would be carried out. *)
Record opts_fixed : Type := {
  overlap_allowed : bool
}.

(** Modelled from the spec: the flags word of the byte search, reduced to
    its overlap bit. *)
Record ByteSearchFlags : Type := {
  BYTESEARCH_OVERLAP : bool
}.

(** Modelled from the spec: [StriContainerByteSearch::getByteSearchFlags] is
    not among the sources.  Overlapping search can be requested only where
    the caller allows it ([allow_overlap], false when omitted). *)
Definition getByteSearchFlags (opts : opts_fixed) (allow_overlap : bool)
  : ByteSearchFlags :=
  {| BYTESEARCH_OVERLAP := allow_overlap && overlap_allowed opts |}.

(** Modelled from the spec: the exact byte comparison of the matcher
    (section 4.4); the bytes of [p] are the first bytes of [s]. *)
Fixpoint starts_with (p s : bytes) : bool :=
  match p, s with
  | [], _ => true
  | _ :: _, [] => false
  | a :: p', b :: s' => Byte.eqb a b && starts_with p' s'
  end.

(** Modelled from the spec: the naive scan of section 4.4 for the leftmost
    occurrence of [p] in [s], whose first byte has offset [idx]. *)
Fixpoint scan_forward (p s : bytes) (idx : nat) : option nat :=
  match s with
  | [] => None
  | _ :: s' => if starts_with p s then Some idx else scan_forward p s' (S idx)
  end.

(** Modelled from the spec: the scan of section 4.4 for the rightmost
    occurrence of [p] in [s], whose first byte has offset [idx]. *)
Fixpoint scan_backward (p s : bytes) (idx : nat) : option nat :=
  match s with
  | [] => None
  | _ :: s' =>
      match scan_backward p s' (S idx) with
      | Some k => Some k
      | None => if starts_with p s then Some idx else None
      end
  end.

(** Modelled from the spec: the class [StriByteSearchMatcher] is not among
    the sources.  Sections 3 and 4.4: a search cursor for one pattern, bound
    to a subject by [reset]; [findFirst] searches from offset 0, [findLast]
    finds the rightmost match (a single match is reported, so that it is
    the rightmost occurrence), [findNext] resumes at the end of the previous
    match, or one byte after its start when overlapping matches are
    requested; all three answer [USEARCH_DONE] when there is no match. *)
Record StriByteSearchMatcher : Type := {
  patternStr : bytes;
  overlap : bool;
  searchStr : bytes;
  searchPos : Z;
  searchEnd : Z
}.

(** Modelled from the spec: [StriContainerByteSearch::getMatcher], the
    matcher of a pattern, not yet bound to a subject. *)
Definition getMatcher (pattern : bytes) (flags : ByteSearchFlags)
  : StriByteSearchMatcher :=
  {| patternStr := pattern; overlap := BYTESEARCH_OVERLAP flags;
     searchStr := []; searchPos := USEARCH_DONE; searchEnd := USEARCH_DONE |}.

(** Modelled from the spec: [reset] binds the matcher to a subject and
    forgets the previous match. *)
Definition reset (m : StriByteSearchMatcher) (s : bytes)
  : StriByteSearchMatcher :=
  {| patternStr := patternStr m; overlap := overlap m;
     searchStr := s; searchPos := USEARCH_DONE; searchEnd := USEARCH_DONE |}.

(** Modelled from the spec: the answer of a search and the cursor it
    leaves.  After a failed search the cursor rests at the end of the
    subject; the callers do not use the matcher again before a [reset]. *)
Definition set_match (m : StriByteSearchMatcher) (found : option nat)
  : Z * StriByteSearchMatcher :=
  match found with
  | Some k =>
      (Z.of_nat k,
       {| patternStr := patternStr m; overlap := overlap m;
          searchStr := searchStr m; searchPos := Z.of_nat k;
          searchEnd := Z.of_nat k + Z.of_nat (length (patternStr m)) |})
  | None =>
      (USEARCH_DONE,
       {| patternStr := patternStr m; overlap := overlap m;
          searchStr := searchStr m;
          searchPos := Z.of_nat (length (searchStr m));
          searchEnd := Z.of_nat (length (searchStr m)) |})
  end.

(** Modelled from the spec: the search for the leftmost match that begins
    at [startPos] or later. *)
Definition findFromPos (m : StriByteSearchMatcher) (startPos : Z)
  : Z * StriByteSearchMatcher :=
  let pos := Z.to_nat startPos in
  set_match m (scan_forward (patternStr m) (skipn pos (searchStr m)) pos).

(** Modelled from the spec: [findFirst] searches from offset 0. *)
Definition findFirst (m : StriByteSearchMatcher) : Z * StriByteSearchMatcher :=
  findFromPos m 0.

(** Modelled from the spec: [findNext] begins at the end of the previous
    match, or at its start plus one when overlap is requested. *)
Definition findNext (m : StriByteSearchMatcher) : Z * StriByteSearchMatcher :=
  if overlap m then findFromPos m (searchPos m + 1)
  else findFromPos m (searchEnd m).

(** Modelled from the spec: [findLast] finds the rightmost match. *)
Definition findLast (m : StriByteSearchMatcher) : Z * StriByteSearchMatcher :=
  set_match m (scan_backward (patternStr m) (searchStr m) 0).

(** Modelled from the spec: [getMatchedLength], the number of bytes of the
    current match. *)
Definition getMatchedLength (m : StriByteSearchMatcher) : Z :=
  searchEnd m - searchPos m.

(** ** Byte offsets to code point offsets *)

Local Open Scope Z_scope.

(** Modelled from the spec: [StriContainerUTF8_indexable::UTF8_to_UChar32_index]
    is not among the sources.  Section 4.2: the buffer is scanned once with a
    byte cursor [i8] and a running code point counter [i32]; an offset is
    answered with the counter as soon as the cursor has reached it, and the
    answer is shifted by a constant. *)
Fixpoint byte_to_codepoint_scan (buf : bytes) (i8 i32 offset : Z) : Z :=
  match buf with
  | [] => i32
  | b :: rest =>
      if offset <=? i8 then i32
      else byte_to_codepoint_scan rest (i8 + 1)
             (if is_trail b then i32 else i32 + 1) offset
  end.

(** Modelled from the spec: the 0-based code point offset of a byte
    offset (section 4.2). *)
Definition byte_to_codepoint (buf : bytes) (offset : Z) : Z :=
  byte_to_codepoint_scan buf 0 0 offset.

(** A two-column integer matrix, kept as its list of rows; the source
    stores it by columns, row [j] of an [m]-row matrix being the cells [j]
    and [j+m]. *)
Definition matrix : Type := list (Z * Z).

(** Modelled from the spec: [UTF8_to_UChar32_index] converts the [ni]
    starts and ends of the matches in the subject [s], in place, and adds
    [adj1] to the starts and [adj2] to the ends (sections 4.2 and 4.3). *)
Definition UTF8_to_UChar32_index (s : bytes) (tab : matrix) (adj1 adj2 : Z)
  : matrix :=
  map (fun row => (byte_to_codepoint s (fst row) + adj1,
                   byte_to_codepoint s (snd row) + adj2)) tab.

(** Modelled from the spec: [stri__matrix_NA_INTEGER] is not among the
    sources; it builds a matrix of [nrow] rows whose cells all hold
    [filler] ([NA_INTEGER] when the argument is omitted). *)
Definition stri__matrix_NA_INTEGER (nrow : nat) (filler : Z) : matrix :=
  repeat (filler, filler) nrow.

(** Modelled from the spec: the macro
    [STRI__CONTINUE_ON_EMPTY_OR_NA_STR_PATTERN] is not among the sources.
    Section 4.5: a missing subject or pattern takes the [naset] exit, else an
    empty pattern takes the [zeroset] exit, else the iteration goes on with
    the two strings. *)
Definition STRI__CONTINUE_ON_EMPTY_OR_NA_STR_PATTERN {A : Type}
    (str_cont pattern_cont : StriContainerUTF8) (i : nat)
    (naset zeroset : A) (otherwise : bytes -> bytes -> A) : A :=
  match str_get str_cont i, str_get pattern_cont i with
  | Some s, Some p =>
      if (length p =? 0)%nat then zeroset else otherwise s p
  | _, _ => naset
  end.

(** ** [stri__locate_firstlast_fixed] *)

(** The body of the loop for index [i]: the pair is the row
    [(ret_tab[i], ret_tab[i+vectorize_length])].  [pattern_cont.getMatcher(i)]
    is the matcher of the pattern at [i], built with [pattern_flags]. *)
Definition locate_firstlast_row
    (str_cont pattern_cont : StriContainerUTF8) (pattern_flags : ByteSearchFlags)
    (first get_length1 : bool) (i : nat) : Z * Z :=
  let ret := (NA_INTEGER, NA_INTEGER) in
  STRI__CONTINUE_ON_EMPTY_OR_NA_STR_PATTERN str_cont pattern_cont i
    ret
    (if get_length1 then (-1, -1) else ret)
    (fun s p =>
       let matcher := reset (getMatcher p pattern_flags) s in
       let (start, matcher) :=
         if first then findFirst matcher else findLast matcher in
       if negb (start =? USEARCH_DONE) then
         let ret := (start, start + getMatchedLength matcher) in
         let ret := hd ret (UTF8_to_UChar32_index s [ret] 1 0) in
         if get_length1 then (fst ret, snd ret - (fst ret - 1)) else ret
       else if get_length1 then (-1, -1)
       else ret).

(** The loop visits every index below [vectorize_length] once; a round
    writes row [i] only and resets the matcher first, so that the rows do
    not depend on the order of the visit. *)
Definition stri__locate_firstlast_fixed
    (str pattern : list (option bytes)) (opts : opts_fixed)
    (first get_length1 : bool) : outcome matrix :=
  let pattern_flags := getByteSearchFlags opts false in
  vectorize_length <-
    stri__recycling_rule true [length str; length pattern] ;;
  let str_cont :=
    {| str_data := str; str_nrecycle := vectorize_length |} in
  let pattern_cont :=
    {| str_data := pattern; str_nrecycle := vectorize_length |} in
  Returns (map (locate_firstlast_row str_cont pattern_cont pattern_flags
                  first get_length1)
               (seq 0 vectorize_length)).

Definition stri_locate_first_fixed
    (str pattern : list (option bytes)) (opts : opts_fixed)
    (get_length : bool) : outcome matrix :=
  stri__locate_firstlast_fixed str pattern opts true get_length.

Definition stri_locate_last_fixed
    (str pattern : list (option bytes)) (opts : opts_fixed)
    (get_length : bool) : outcome matrix :=
  stri__locate_firstlast_fixed str pattern opts false get_length.

(** ** [stri_locate_all_fixed] *)

(** The [while] loop that fills [occurrences].  Every round moves the
    cursor forward, so a subject of [len] bytes is exhausted after at most
    [len] matches; the caller passes a budget of [len + 1] rounds. *)
Fixpoint collect_occurrences (rounds : nat) (start : Z)
    (matcher : StriByteSearchMatcher) : matrix :=
  match rounds with
  | O => []
  | S rounds' =>
      if start =? USEARCH_DONE then []
      else
        let occurrence := (start, start + getMatchedLength matcher) in
        let (start', matcher') := findNext matcher in
        occurrence :: collect_occurrences rounds' start' matcher'
  end.

(** The body of the loop for index [i]: the matrix stored in [ret[i]]. *)
Definition locate_all_element
    (str_cont pattern_cont : StriContainerUTF8) (pattern_flags : ByteSearchFlags)
    (omit_no_match1 get_length1 : bool) (i : nat) : matrix :=
  STRI__CONTINUE_ON_EMPTY_OR_NA_STR_PATTERN str_cont pattern_cont i
    (stri__matrix_NA_INTEGER 1 NA_INTEGER)
    (stri__matrix_NA_INTEGER (if omit_no_match1 then 0 else 1)
       (if get_length1 then -1 else NA_INTEGER))
    (fun s p =>
       let matcher := reset (getMatcher p pattern_flags) s in
       let (start, matcher) := findFirst matcher in
       if start =? USEARCH_DONE then
         stri__matrix_NA_INTEGER (if omit_no_match1 then 0 else 1)
           (if get_length1 then -1 else NA_INTEGER)
       else
         let occurrences :=
           collect_occurrences (S (length s)) start matcher in
         let ans := UTF8_to_UChar32_index s occurrences 1 0 in
         if get_length1
         then map (fun row => (fst row, snd row - (fst row - 1))) ans
         else ans).

Definition stri_locate_all_fixed
    (str pattern : list (option bytes)) (omit_no_match : bool)
    (opts : opts_fixed) (get_length : bool) : outcome (list matrix) :=
  let pattern_flags := getByteSearchFlags opts true in
  vectorize_length <-
    stri__recycling_rule true [length str; length pattern] ;;
  let str_cont :=
    {| str_data := str; str_nrecycle := vectorize_length |} in
  let pattern_cont :=
    {| str_data := pattern; str_nrecycle := vectorize_length |} in
  Returns (map (locate_all_element str_cont pattern_cont pattern_flags
                  omit_no_match get_length)
               (seq 0 vectorize_length)).

(** ** The strings of the scenarios of the specification *)

Definition abcabc : bytes := [x61; x62; x63; x61; x62; x63].
Definition xyz : bytes := [x78; x79; x7a].
Definition bc : bytes := [x62; x63].
(** U+00E9 followed by "bc". *)
Definition e_acute_bc : bytes := [xc3; xa9; x62; x63].
Definition aaaa : bytes := [x61; x61; x61; x61].
Definition aaa : bytes := [x61; x61; x61].
Definition letter_a : bytes := [x61].
Definition aa : bytes := [x61; x61].

(** A list of two character vectors, the second one missing, recycled to
    four elements; and a list of two integer vectors, where an empty vector
    stands for a missing one. *)
Definition two_of_four_utf8 : StriContainerListUTF8.container :=
  {| Container.n := 2; Container.nrecycle := 4;
     Container.data :=
       [Some {| str_data := [Some abcabc; Some xyz]; str_nrecycle := 2 |};
        None] |}.

Definition empty_is_NA (v : list Z) : bool :=
  match v with
  | [] => true
  | _ :: _ => false
  end.

Definition two_of_four_int : StriContainerListInt.container (list Z) :=
  {| Container.n := 2; Container.nrecycle := 4;
     Container.data := [[1; 2]; []]%Z |}.

Definition no_overlap : opts_fixed := {| overlap_allowed := false |}.
Definition with_overlap : opts_fixed := {| overlap_allowed := true |}.

(** ** Notions used to state the properties *)

(** [p] occurs in [s] at byte offset [k]. *)
Definition occurs_at (p s : bytes) (k : nat) : Prop :=
  firstn (length p) (skipn k s) = p.

(** [sweep p s resume from ks]: [ks] lists, from left to right, the offsets
    met by a search that starts at [from], always takes the leftmost
    occurrence not before its starting point, and after an occurrence at [k]
    starts again at [resume k]; it ends when no occurrence is left. *)
Inductive sweep (p s : bytes) (resume : nat -> nat) : nat -> list nat -> Prop :=
| sweep_done (from : nat) :
    (forall j, (from <= j)%nat -> ~ occurs_at p s j) ->
    sweep p s resume from []
| sweep_match (from k : nat) (rest : list nat) :
    (from <= k)%nat ->
    occurs_at p s k ->
    (forall j, (from <= j < k)%nat -> ~ occurs_at p s j) ->
    sweep p s resume (resume k) rest ->
    sweep p s resume from (k :: rest).

(** Where the search starts again after a match at [k]. *)
Definition resume_after (overlap_requested : bool) (p : bytes) (k : nat) : nat :=
  if overlap_requested then S k else (k + length p)%nat.

(** The byte range [[k, k + length p)] of a match, as [occurrences] holds it. *)
Definition byte_range (p : bytes) (k : nat) : Z * Z :=
  (Z.of_nat k, Z.of_nat k + Z.of_nat (length p)).

(** Number of code points that start in a buffer. *)
Definition count_leads (buf : bytes) : nat :=
  length (filter (fun b => negb (is_trail b)) buf).

(** The record reported for a match of [p] at byte offset [k] of [s]:
    1-based code point positions of its first and last code point, or the
    first position and the length in code points. *)
Definition reported (get_length1 : bool) (s p : bytes) (k : nat) : Z * Z :=
  let from := byte_to_codepoint s (Z.of_nat k) + 1 in
  let to := byte_to_codepoint s (Z.of_nat k + Z.of_nat (length p)) in
  if get_length1 then (from, to - (from - 1)) else (from, to).

(** The record that stands for "no match": [(-1,-1)] in length mode, the
    [NA] record otherwise. *)
Definition not_found (get_length1 : bool) : Z * Z :=
  if get_length1 then (-1, -1) else (NA_INTEGER, NA_INTEGER).

Definition NA_record : Z * Z := (NA_INTEGER, NA_INTEGER).

(** The container built from a character vector for [L] iterations. *)
Definition vec (data : list (option bytes)) (L : nat) : StriContainerUTF8 :=
  {| str_data := data; str_nrecycle := L |}.

(** What [stri_locate_all_fixed] stores for an element without a match. *)
Definition no_match_rows (omit_no_match1 get_length1 : bool) : matrix :=
  if omit_no_match1 then [] else [not_found get_length1].

(** The closed form of the body of the loop of
    [stri__locate_firstlast_fixed], for a subject and a pattern. *)
Definition firstlast_record (first get_length1 : bool)
    (subject pattern : option bytes) : Z * Z :=
  match subject, pattern with
  | Some s, Some p =>
      if (length p =? 0)%nat then not_found get_length1
      else match (if first then scan_forward p s 0
                  else scan_backward p s 0) with
           | Some k => reported get_length1 s p k
           | None => not_found get_length1
           end
  | _, _ => NA_record
  end.

(** A record is a sentinel when it is the [NA] record or [(-1,-1)]. *)
Definition is_sentinel (r : Z * Z) : bool :=
  ((fst r =? NA_INTEGER) && (snd r =? NA_INTEGER))
  || ((fst r =? -1) && (snd r =? -1)).

(** A record of length mode and the record of position mode that stands
    for the same match: both are sentinels, or both are not and the
    position pair [(start, end)] has [end = start + length - 1]. *)
Definition same_match (length_form position_form : Z * Z) : Prop :=
  is_sentinel position_form = is_sentinel length_form /\
  (is_sentinel length_form = false ->
   fst position_form = fst length_form /\
   snd position_form = fst length_form + snd length_form - 1).

Definition positions_ordered (position_form : Z * Z) : Prop :=
  is_sentinel position_form = false ->
  snd position_form >= fst position_form.

(** The record of a match that begins after [before] code points and
    covers [inside] code points: the 1-based positions of its first and of
    its last code point, or the first position and the number of code
    points. *)
Definition codepoint_record (get_length1 : bool) (before inside : nat)
  : Z * Z :=
  (Z.of_nat before + 1,
   if get_length1 then Z.of_nat inside
   else Z.of_nat before + Z.of_nat inside).

(** [r] is the record of an occurrence of the code points [ps] among the
    code points [cs], each code point given by its bytes. *)
Definition codepoint_match (get_length1 : bool) (cs ps : list bytes)
    (r : Z * Z) : Prop :=
  exists pre post,
    cs = pre ++ ps ++ post /\
    r = codepoint_record get_length1 (length pre) (length ps).

(** ** Facts on the byte search *)

Local Close Scope Z_scope.

(** ** Recycling by hand *)

(** A character vector repeated to [L] elements. *)
Definition recycle (v : list (option bytes)) (L : nat) : list (option bytes) :=
  map (fun i => nth (i mod length v) v None) (seq 0 L).

(** ** The result matrix in memory *)

Local Open Scope Z_scope.

(** The cells of an integer matrix as [INTEGER(ret)] addresses them, column
    after column; [None] is a cell that is allocated and not yet written. *)
Definition cells : Type := list (option Z).

(** [Rf_allocMatrix(INTSXP, nrow, 2)]: [2 * nrow] cells, none of them
    written. *)
Definition Rf_allocMatrix2 (nrow : nat) : cells := repeat None (nrow + nrow)%nat.

Fixpoint upd (tab : cells) (idx : nat) (v : Z) : cells :=
  match tab, idx with
  | [], _ => []
  | _ :: t, O => Some v :: t
  | c :: t, S idx' => c :: upd t idx' v
  end.

(** [tab[idx] = v]; a write outside the allocation is undefined. *)
Definition store (tab : cells) (idx : nat) (v : Z) : outcome cells :=
  if (idx <? length tab)%nat then Returns (upd tab idx v) else Undefined.

(** The value of [tab[idx]]; reading outside the allocation or reading a
    cell that was never written is undefined. *)
Definition load (tab : cells) (idx : nat) : outcome Z :=
  match nth_error tab idx with
  | Some (Some v) => Returns v
  | _ => Undefined
  end.

(** The cells of a matrix given by its rows. *)
Definition layout (rows : matrix) : cells :=
  map Some (map fst rows ++ map snd rows).

(** Modelled from the spec: [UTF8_to_UChar32_index] as it works on memory,
    [i1] and [i2] being the offsets of the first start and of the first end
    in [tab]: the [ni] starts and ends are read, converted and written back
    (sections 4.2 and 4.3). *)
Fixpoint UTF8_to_UChar32_index_cells (s : bytes) (tab : cells)
    (i1 i2 ni : nat) (adj1 adj2 : Z) : outcome cells :=
  match ni with
  | O => Returns tab
  | S ni' =>
      from <- load tab i1 ;;
      to <- load tab i2 ;;
      tab <- store tab i1 (byte_to_codepoint s from + adj1) ;;
      tab <- store tab i2 (byte_to_codepoint s to + adj2) ;;
      UTF8_to_UChar32_index_cells s tab (S i1) (S i2) ni' adj1 adj2
  end.

(** The body of the loop of [stri__locate_firstlast_fixed] on the cells of
    [ret_tab], statement by statement. *)
Definition locate_firstlast_step
    (str_cont pattern_cont : StriContainerUTF8) (pattern_flags : ByteSearchFlags)
    (first get_length1 : bool) (vectorize_length : nat)
    (ret_tab : cells) (i : nat) : outcome cells :=
  ret_tab <- store ret_tab i NA_INTEGER ;;
  ret_tab <- store ret_tab (i + vectorize_length)%nat NA_INTEGER ;;
  STRI__CONTINUE_ON_EMPTY_OR_NA_STR_PATTERN str_cont pattern_cont i
    (Returns ret_tab)
    (if get_length1 then
       ret_tab <- store ret_tab (i + vectorize_length)%nat (-1) ;;
       store ret_tab i (-1)
     else Returns ret_tab)
    (fun s p =>
       let matcher := reset (getMatcher p pattern_flags) s in
       let (start, matcher) :=
         if first then findFirst matcher else findLast matcher in
       if negb (start =? USEARCH_DONE) then
         ret_tab <- store ret_tab i start ;;
         ret_tab <- store ret_tab (i + vectorize_length)%nat
                      (start + getMatchedLength matcher) ;;
         ret_tab <- UTF8_to_UChar32_index_cells s ret_tab
                      i (i + vectorize_length)%nat 1%nat 1 0 ;;
         if get_length1 then
           from <- load ret_tab i ;;
           to <- load ret_tab (i + vectorize_length)%nat ;;
           store ret_tab (i + vectorize_length)%nat (to - (from - 1))
         else Returns ret_tab
       else if get_length1 then
         ret_tab <- store ret_tab i (-1) ;;
         store ret_tab (i + vectorize_length)%nat (-1)
       else Returns ret_tab).

(** A loop that visits the indices of [order] one after the other. *)
Fixpoint visit (step : cells -> nat -> outcome cells) (order : list nat)
    (tab : cells) : outcome cells :=
  match order with
  | [] => Returns tab
  | i :: rest =>
      tab <- step tab i ;;
      visit step rest tab
  end.

(** [stri__locate_firstlast_fixed] with its result in memory.  The
    functions [vectorize_init], [vectorize_next] and [vectorize_end] that
    generate the sequence of visited indices are not among the sources;
    [order L] stands for the sequence they generate for the vectorised
    length [L]. *)
Definition stri__locate_firstlast_fixed_cells
    (order : nat -> list nat)
    (str pattern : list (option bytes)) (opts : opts_fixed)
    (first get_length1 : bool) : outcome cells :=
  let pattern_flags := getByteSearchFlags opts false in
  vectorize_length <-
    stri__recycling_rule true [length str; length pattern] ;;
  let str_cont :=
    {| str_data := str; str_nrecycle := vectorize_length |} in
  let pattern_cont :=
    {| str_data := pattern; str_nrecycle := vectorize_length |} in
  let ret_tab := Rf_allocMatrix2 vectorize_length in
  visit (locate_firstlast_step str_cont pattern_cont pattern_flags
           first get_length1 vectorize_length)
        (order vectorize_length) ret_tab.

(** The loop of [stri_locate_all_fixed] that copies the collected
    occurrences into the cells of [ans_tab], [j] counting the rows. *)
Fixpoint fill_occurrences (occurrences : matrix) (ans_tab : cells)
    (j noccurrences : nat) : outcome cells :=
  match occurrences with
  | [] => Returns ans_tab
  | match_ :: rest =>
      ans_tab <- store ans_tab j (fst match_) ;;
      ans_tab <- store ans_tab (j + noccurrences)%nat (snd match_) ;;
      fill_occurrences rest ans_tab (S j) noccurrences
  end.

(** The loop of [stri_locate_all_fixed] that turns the ends into lengths,
    from row [j] on, for [rounds] rows. *)
Fixpoint lengths_in_place (ans_tab : cells) (j rounds noccurrences : nat)
  : outcome cells :=
  match rounds with
  | O => Returns ans_tab
  | S rounds' =>
      from <- load ans_tab j ;;
      to <- load ans_tab (j + noccurrences)%nat ;;
      ans_tab <- store ans_tab (j + noccurrences)%nat (to - (from - 1)) ;;
      lengths_in_place ans_tab (S j) rounds' noccurrences
  end.

(** The matrix [ans] that [stri_locate_all_fixed] builds from the
    occurrences found in the subject [s]. *)
Definition locate_all_matrix_cells (s : bytes) (occurrences : matrix)
    (get_length1 : bool) : outcome cells :=
  let noccurrences := length occurrences in
  let ans_tab := Rf_allocMatrix2 noccurrences in
  ans_tab <- fill_occurrences occurrences ans_tab 0 noccurrences ;;
  ans_tab <- UTF8_to_UChar32_index_cells s ans_tab 0 noccurrences
               noccurrences 1 0 ;;
  if get_length1 then lengths_in_place ans_tab 0 noccurrences noccurrences
  else Returns ans_tab.

(** The body of the loop of [stri_locate_all_fixed] with the matrix stored
    in [ret[i]] in memory; the matrices that [stri__matrix_NA_INTEGER]
    builds come with all their cells written. *)
Definition locate_all_element_cells
    (str_cont pattern_cont : StriContainerUTF8) (pattern_flags : ByteSearchFlags)
    (omit_no_match1 get_length1 : bool) (i : nat) : outcome cells :=
  STRI__CONTINUE_ON_EMPTY_OR_NA_STR_PATTERN str_cont pattern_cont i
    (Returns (layout (stri__matrix_NA_INTEGER 1 NA_INTEGER)))
    (Returns (layout (stri__matrix_NA_INTEGER
                        (if omit_no_match1 then 0 else 1)
                        (if get_length1 then -1 else NA_INTEGER))))
    (fun s p =>
       let matcher := reset (getMatcher p pattern_flags) s in
       let (start, matcher) := findFirst matcher in
       if start =? USEARCH_DONE then
         Returns (layout (stri__matrix_NA_INTEGER
                            (if omit_no_match1 then 0 else 1)
                            (if get_length1 then -1 else NA_INTEGER)))
       else
         let occurrences :=
           collect_occurrences (S (length s)) start matcher in
         locate_all_matrix_cells s occurrences get_length1).

Local Close Scope Z_scope.

(** The scenarios of section 8 of the specification, by evaluation. *)

Example scenario_first_positions :
  stri_locate_first_fixed [Some abcabc; Some xyz] [Some bc] no_overlap false
  = Returns [(2, 3); (NA_INTEGER, NA_INTEGER)]%Z.
Proof. reflexivity. Qed.

Example scenario_first_lengths :
  stri_locate_first_fixed [Some abcabc; Some xyz] [Some bc] no_overlap true
  = Returns [(2, 2); (-1, -1)]%Z.
Proof. reflexivity. Qed.

Example scenario_last_positions :
  stri_locate_last_fixed [Some abcabc; Some xyz] [Some bc] no_overlap false
  = Returns [(5, 6); (NA_INTEGER, NA_INTEGER)]%Z.
Proof. reflexivity. Qed.

Example scenario_all_single_byte :
  stri_locate_all_fixed [Some aaa] [Some letter_a] false no_overlap false
  = Returns [[(1, 1); (2, 2); (3, 3)]%Z]
  /\ stri_locate_all_fixed [Some aaa] [Some letter_a] false with_overlap false
     = Returns [[(1, 1); (2, 2); (3, 3)]%Z].
Proof. split; reflexivity. Qed.

Example scenario_incompatible_lengths :
  stri_locate_first_fixed [Some aa; Some aa; Some aa; Some aa]
    [Some bc; Some bc; Some bc] no_overlap false
  = Throws RecyclingIncompatible.
Proof. reflexivity. Qed.

Lemma starts_with_firstn (p s : bytes) :
  starts_with p s = true <-> firstn (length p) s = p.
Proof.
  revert s; induction p as [|a p IH]; intros s; simpl.
  - tauto.
  - destruct s as [|b s]; simpl.
    + split; discriminate.
    + rewrite andb_true_iff, IH. split.
      * intros [Hab Hp]. apply byte_dec_bl in Hab. now subst; f_equal.
      * intros H; injection H as -> Hp. split; [now apply byte_dec_lb | easy].
Qed.

Lemma occurs_at_bound (p s : bytes) (k : nat) :
  p <> [] -> occurs_at p s k -> k + length p <= length s.
Proof.
  unfold occurs_at; intros Hp H.
  assert (Hl : length (firstn (length p) (skipn k s)) = length p)
    by now rewrite H.
  rewrite length_firstn, length_skipn in Hl.
  assert (0 < length p) by (destruct p; [easy | simpl; lia]).
  lia.
Qed.

Lemma occurs_at_shift (p s : bytes) (b : byte) (k : nat) :
  occurs_at p (b :: s) (S k) <-> occurs_at p s k.
Proof. unfold occurs_at; simpl; tauto. Qed.

Lemma occurs_at_0 (p s : bytes) :
  occurs_at p s 0 <-> starts_with p s = true.
Proof. symmetry; apply starts_with_firstn. Qed.

(** [scan_forward] returns the leftmost occurrence. *)
Lemma scan_forward_spec (p : bytes) :
  p <> [] ->
  forall (t : bytes) (idx : nat),
    match scan_forward p t idx with
    | Some k =>
        idx <= k /\ occurs_at p t (k - idx) /\
        (forall j, j < k - idx -> ~ occurs_at p t j)
    | None => forall j, ~ occurs_at p t j
    end.
Proof.
  intros Hp t; induction t as [|b t IH]; intros idx; simpl.
  - intros j H. apply occurs_at_bound in H; trivial.
    destruct p; [easy | simpl in H; lia].
  - destruct (starts_with p (b :: t)) eqn:E.
    + rewrite Nat.sub_diag. repeat split; [lia | | lia].
      now apply occurs_at_0.
    + specialize (IH (S idx)). destruct (scan_forward p t (S idx)) as [k|].
      * destruct IH as (Hle & Hocc & Hmin).
        replace (k - idx) with (S (k - S idx)) by lia.
        repeat split; [lia | now apply occurs_at_shift |].
        intros [|j] Hj.
        -- intros H. apply occurs_at_0 in H. congruence.
        -- rewrite occurs_at_shift. apply Hmin. lia.
      * intros [|j].
        -- intros H. apply occurs_at_0 in H. congruence.
        -- rewrite occurs_at_shift. apply IH.
Qed.

(** [scan_backward] returns the rightmost occurrence. *)
Lemma scan_backward_spec (p : bytes) :
  p <> [] ->
  forall (t : bytes) (idx : nat),
    match scan_backward p t idx with
    | Some k =>
        idx <= k /\ occurs_at p t (k - idx) /\
        (forall j, k - idx < j -> ~ occurs_at p t j)
    | None => forall j, ~ occurs_at p t j
    end.
Proof.
  intros Hp t; induction t as [|b t IH]; intros idx; simpl.
  - intros j H. apply occurs_at_bound in H; trivial.
    destruct p; [easy | simpl in H; lia].
  - specialize (IH (S idx)). destruct (scan_backward p t (S idx)) as [k|].
    + destruct IH as (Hle & Hocc & Hmax).
      replace (k - idx) with (S (k - S idx)) by lia.
      repeat split; [lia | now apply occurs_at_shift |].
      intros [|j] Hj; [lia |].
      rewrite occurs_at_shift. apply Hmax. lia.
    + destruct (starts_with p (b :: t)) eqn:E.
      * rewrite Nat.sub_diag. repeat split; [lia | |].
        -- now apply occurs_at_0.
        -- intros [|j] Hj; [lia |]. rewrite occurs_at_shift. apply IH.
      * intros [|j].
        -- intros H. apply occurs_at_0 in H. congruence.
        -- rewrite occurs_at_shift. apply IH.
Qed.

Lemma occurs_at_skipn (p s : bytes) (pos j : nat) :
  occurs_at p (skipn pos s) j <-> occurs_at p s (pos + j).
Proof.
  unfold occurs_at. rewrite skipn_skipn.
  now replace (j + pos) with (pos + j) by lia.
Qed.

(** A forward search from [pos] answers the leftmost occurrence at or after
    [pos]. *)
Lemma find_from_spec (p s : bytes) (pos : nat) :
  p <> [] ->
  match scan_forward p (skipn pos s) pos with
  | Some k =>
      pos <= k /\ occurs_at p s k /\
      (forall j, pos <= j < k -> ~ occurs_at p s j)
  | None => forall j, pos <= j -> ~ occurs_at p s j
  end.
Proof.
  intros Hp. pose proof (scan_forward_spec p Hp (skipn pos s) pos) as H.
  destruct (scan_forward p (skipn pos s) pos) as [k|].
  - destruct H as (Hle & Hocc & Hmin). repeat split; trivial.
    + apply occurs_at_skipn in Hocc.
      now replace (pos + (k - pos)) with k in Hocc by lia.
    + intros j Hj Hc. apply (Hmin (j - pos)); [lia |].
      apply occurs_at_skipn. now replace (pos + (j - pos)) with j by lia.
  - intros j Hj Hc. apply (H (j - pos)).
    apply occurs_at_skipn. now replace (pos + (j - pos)) with j by lia.
Qed.

Lemma find_first_spec (p s : bytes) :
  p <> [] ->
  match scan_forward p s 0 with
  | Some k => occurs_at p s k /\ (forall j, j < k -> ~ occurs_at p s j)
  | None => forall j, ~ occurs_at p s j
  end.
Proof.
  intros Hp. pose proof (find_from_spec p s 0 Hp) as H. simpl in H.
  destruct (scan_forward p s 0) as [k|].
  - destruct H as (_ & Hocc & Hmin). split; trivial.
    intros j Hj. apply Hmin. lia.
  - intros j. apply H. lia.
Qed.

Lemma find_last_spec (p s : bytes) :
  p <> [] ->
  match scan_backward p s 0 with
  | Some k => occurs_at p s k /\ (forall j, k < j -> ~ occurs_at p s j)
  | None => forall j, ~ occurs_at p s j
  end.
Proof.
  intros Hp. pose proof (scan_backward_spec p Hp s 0) as H.
  destruct (scan_backward p s 0) as [k|]; trivial.
  rewrite Nat.sub_0_r in H. destruct H as (_ & Hocc & Hmax). now split.
Qed.

(** A way to establish that a pattern occurs nowhere: run the search. *)
Lemma no_occurrence_by_search (p s : bytes) :
  p <> [] -> scan_forward p s 0 = None -> forall k, ~ occurs_at p s k.
Proof.
  intros Hp H. pose proof (find_first_spec p s Hp) as Hs.
  now rewrite H in Hs.
Qed.

(** A way to establish that an occurrence is the only one: search from
    both ends. *)
Lemma unique_occurrence_by_search (p s : bytes) (k : nat) :
  p <> [] -> scan_forward p s 0 = Some k -> scan_backward p s 0 = Some k ->
  forall j, occurs_at p s j -> j = k.
Proof.
  intros Hp Hf Hb j Hj.
  pose proof (find_first_spec p s Hp) as H1.
  pose proof (find_last_spec p s Hp) as H2.
  rewrite Hf in H1. rewrite Hb in H2.
  destruct (Nat.lt_trichotomy j k) as [Hlt | [-> | Hgt]]; trivial.
  - now destruct (proj2 H1 j Hlt).
  - now destruct (proj2 H2 j Hgt).
Qed.

Lemma length_zero_nil (p : bytes) : (length p =? 0) = false -> p <> [].
Proof. destruct p; [discriminate | easy]. Qed.

(** ** The loop bodies in closed form *)

Local Open Scope Z_scope.

Lemma offset_not_done (k : nat) : (Z.of_nat k =? USEARCH_DONE) = false.
Proof. apply Z.eqb_neq. unfold USEARCH_DONE. lia. Qed.

Lemma locate_firstlast_row_eq
    (sc pc : StriContainerUTF8) (flags : ByteSearchFlags)
    (first gl : bool) (i : nat) :
  locate_firstlast_row sc pc flags first gl i =
  firstlast_record first gl (str_get sc i) (str_get pc i).
Proof.
  unfold locate_firstlast_row, STRI__CONTINUE_ON_EMPTY_OR_NA_STR_PATTERN.
  unfold firstlast_record.
  destruct (str_get sc i) as [s|]; [| reflexivity].
  destruct (str_get pc i) as [p|]; [| reflexivity].
  destruct (length p =? 0)%nat; [reflexivity |].
  assert (Hfound : forall (found : option nat) (m : StriByteSearchMatcher),
    patternStr m = p ->
    (let (start, matcher) := set_match m found in
     if negb (start =? USEARCH_DONE)
     then
       let ret := (start, start + getMatchedLength matcher) in
       let ret := hd ret (UTF8_to_UChar32_index s [ret] 1 0) in
       if gl then (fst ret, snd ret - (fst ret - 1)) else ret
     else if gl then (-1, -1) else (NA_INTEGER, NA_INTEGER)) =
    match found with
    | Some k => reported gl s p k
    | None => not_found gl
    end).
  { intros [k|] m Hm; simpl; [| reflexivity].
    rewrite offset_not_done.
    simpl. unfold getMatchedLength, reported; simpl. rewrite Hm.
    replace (Z.of_nat k + (Z.of_nat k + Z.of_nat (length p) - Z.of_nat k))
      with (Z.of_nat k + Z.of_nat (length p)) by lia.
    now rewrite Z.add_0_r. }
  destruct first.
  - unfold findFirst, findFromPos. simpl Z.to_nat. rewrite skipn_O.
    now apply Hfound.
  - unfold findLast. now apply Hfound.
Qed.

Lemma collect_occurrences_done (rounds : nat) (m : StriByteSearchMatcher) :
  collect_occurrences rounds USEARCH_DONE m = [].
Proof. now destruct rounds. Qed.

(** The [while] loop of [stri_locate_all_fixed], entered on a match at [k],
    collects the sweep that resumes after [k]; the budget of rounds is not
    exhausted. *)
Lemma collect_occurrences_sweep (p s : bytes) (ov : bool) :
  p <> [] ->
  forall (rounds k : nat) (m : StriByteSearchMatcher),
    patternStr m = p -> searchStr m = s -> overlap m = ov ->
    searchPos m = Z.of_nat k ->
    searchEnd m = Z.of_nat k + Z.of_nat (length p) ->
    occurs_at p s k ->
    (length s < rounds + k)%nat ->
    exists rest,
      collect_occurrences rounds (Z.of_nat k) m = map (byte_range p) (k :: rest)
      /\ sweep p s (resume_after ov p) (resume_after ov p k) rest.
Proof.
  intros Hp. assert (Hlen : (0 < length p)%nat)
    by (destruct p; [easy | simpl; lia]).
  induction rounds as [|rounds IH]; intros k m Hpat Hstr Hov Hpos Hend Hocc Hr.
  - apply occurs_at_bound in Hocc; trivial. lia.
  - simpl. rewrite offset_not_done.
    assert (Hnext : findNext m =
      set_match m (scan_forward p (skipn (resume_after ov p k) s)
                     (resume_after ov p k))).
    { unfold findNext, findFromPos, resume_after.
      rewrite Hov, Hpat, Hstr, Hpos, Hend. destruct ov.
      - now replace (Z.to_nat (Z.of_nat k + 1)) with (S k) by lia.
      - now replace (Z.to_nat (Z.of_nat k + Z.of_nat (length p)))
          with (k + length p)%nat by lia. }
    rewrite Hnext.
    pose proof (find_from_spec p s (resume_after ov p k) Hp) as Hspec.
    assert (Hadv : (k < resume_after ov p k)%nat)
      by (unfold resume_after; destruct ov; lia).
    unfold getMatchedLength. rewrite Hpos, Hend.
    replace (Z.of_nat k + (Z.of_nat k + Z.of_nat (length p) - Z.of_nat k))
      with (Z.of_nat k + Z.of_nat (length p)) by lia.
    destruct (scan_forward p (skipn (resume_after ov p k) s)
                (resume_after ov p k)) as [k'|]; simpl.
    + destruct Hspec as (Hle & Hocc' & Hmin).
      assert (Hrec : exists rest,
        collect_occurrences rounds (Z.of_nat k')
          (snd (set_match m (Some k'))) = map (byte_range p) (k' :: rest)
        /\ sweep p s (resume_after ov p) (resume_after ov p k') rest).
      { apply IH; simpl; trivial; try lia. now rewrite Hpat. }
      destruct Hrec as (rest & Hcol & Hsw). simpl in Hcol.
      exists (k' :: rest). split.
      * now rewrite Hcol.
      * now apply sweep_match.
    + exists []. split.
      * now rewrite collect_occurrences_done.
      * now apply sweep_done.
Qed.

Lemma reported_convert (gl : bool) (s p : bytes) (ks : list nat) :
  (let ans := UTF8_to_UChar32_index s (map (byte_range p) ks) 1 0 in
   if gl then map (fun row => (fst row, snd row - (fst row - 1))) ans
   else ans) = map (reported gl s p) ks.
Proof.
  unfold UTF8_to_UChar32_index, reported, byte_range; simpl.
  destruct gl; rewrite !map_map; apply map_ext; intros k; simpl;
    now rewrite Z.add_0_r.
Qed.

(** The body of the loop of [stri_locate_all_fixed], by cases. *)
Lemma locate_all_element_cases
    (sc pc : StriContainerUTF8) (flags : ByteSearchFlags) (i : nat) :
  match str_get sc i, str_get pc i with
  | Some s, Some p =>
      if (length p =? 0)%nat
      then forall omit gl,
             locate_all_element sc pc flags omit gl i = no_match_rows omit gl
      else
        ((forall j, ~ occurs_at p s j) /\
         forall omit gl,
           locate_all_element sc pc flags omit gl i = no_match_rows omit gl)
        \/
        (exists k rest,
            sweep p s (resume_after (BYTESEARCH_OVERLAP flags) p) 0 (k :: rest)
            /\ forall omit gl,
                 locate_all_element sc pc flags omit gl i
                 = map (reported gl s p) (k :: rest))
  | _, _ =>
      forall omit gl, locate_all_element sc pc flags omit gl i = [NA_record]
  end.
Proof.
  unfold locate_all_element, STRI__CONTINUE_ON_EMPTY_OR_NA_STR_PATTERN.
  destruct (str_get sc i) as [s|]; [| reflexivity].
  destruct (str_get pc i) as [p|]; [| reflexivity].
  destruct (length p =? 0)%nat eqn:Ep.
  { intros omit gl. unfold no_match_rows, not_found. now destruct omit, gl. }
  apply length_zero_nil in Ep.
  unfold findFirst, findFromPos. simpl Z.to_nat. rewrite skipn_O.
  cbn [reset getMatcher patternStr searchStr].
  pose proof (find_first_spec p s Ep) as Hspec.
  destruct (scan_forward p s 0) as [k|] eqn:Ek.
  - right. destruct Hspec as (Hocc & Hmin).
    cbn [set_match patternStr searchStr overlap].
    rewrite offset_not_done.
    match goal with
    | |- context [collect_occurrences ?r ?z ?m] =>
        destruct (collect_occurrences_sweep p s (BYTESEARCH_OVERLAP flags)
                    Ep r k m) as (rest & Hcol & Hsw);
          trivial; try lia
    end.
    exists k, rest. split.
    + apply sweep_match; trivial; [lia | intros j Hj; apply Hmin; lia].
    + intros omit gl. rewrite Hcol. apply reported_convert.
  - left. split; trivial.
    intros omit gl.
    cbn [set_match]. unfold no_match_rows, not_found. simpl.
    now destruct omit, gl.
Qed.

(** ** The vectorised loops *)

Local Close Scope Z_scope.

Lemma recycling_rule_two (ns np : nat) :
  stri__recycling_rule true [ns; np] =
  if (ns =? 0) || (np =? 0) then Returns 0
  else if Nat.max ns np mod Nat.min ns np =? 0 then Returns (Nat.max ns np)
       else Throws RecyclingIncompatible.
Proof.
  unfold stri__recycling_rule. cbn [existsb forallb fold_right andb].
  rewrite !orb_false_r, Nat.max_0_r, andb_true_r.
  destruct (Nat.eqb_spec ns 0) as [->|Hs]; [reflexivity |].
  destruct (Nat.eqb_spec np 0) as [->|Hp]; [reflexivity |].
  cbn [orb].
  destruct (Nat.le_ge_cases ns np) as [Hle|Hle].
  - rewrite (Nat.max_r _ _ Hle), (Nat.min_l _ _ Hle).
    now rewrite Nat.Div0.mod_same, andb_true_r.
  - rewrite (Nat.max_l _ _ Hle), (Nat.min_r _ _ Hle).
    now rewrite Nat.Div0.mod_same.
Qed.

Lemma firstlast_returns (str pattern : list (option bytes))
    (opts : opts_fixed) (first gl : bool) (rows : matrix) :
  stri__locate_firstlast_fixed str pattern opts first gl = Returns rows ->
  exists L,
    stri__recycling_rule true [length str; length pattern] = Returns L /\
    rows = map (fun i => firstlast_record first gl
                           (nth (i mod length str) str None)
                           (nth (i mod length pattern) pattern None))
               (seq 0 L).
Proof.
  unfold stri__locate_firstlast_fixed.
  destruct (stri__recycling_rule true [length str; length pattern])
    as [L| |]; simpl; try discriminate.
  intros H; injection H as <-. exists L. split; trivial.
  apply map_ext. intros i. now rewrite locate_firstlast_row_eq.
Qed.

Lemma nth_error_map_seq {A : Type} (f : nat -> A) (L i : nat) :
  i < L -> nth_error (map f (seq 0 L)) i = Some (f i).
Proof.
  intros Hi. rewrite nth_error_map, nth_error_seq.
  destruct (Nat.ltb_spec i L); [reflexivity | lia].
Qed.

Lemma str_get_vec (d : list (option bytes)) (L i : nat) :
  str_get (vec d L) i = nth (i mod length d) d None.
Proof. reflexivity. Qed.

Lemma locate_all_element_ext
    (sc pc sc' pc' : StriContainerUTF8) (flags : ByteSearchFlags)
    (omit gl : bool) (i i' : nat) :
  str_get sc i = str_get sc' i' -> str_get pc i = str_get pc' i' ->
  locate_all_element sc pc flags omit gl i
  = locate_all_element sc' pc' flags omit gl i'.
Proof.
  intros Hs Hp.
  unfold locate_all_element, STRI__CONTINUE_ON_EMPTY_OR_NA_STR_PATTERN.
  now rewrite Hs, Hp.
Qed.

Lemma all_returns (str pattern : list (option bytes)) (omit : bool)
    (opts : opts_fixed) (gl : bool) (res : list matrix) :
  stri_locate_all_fixed str pattern omit opts gl = Returns res ->
  exists L,
    stri__recycling_rule true [length str; length pattern] = Returns L /\
    res = map (locate_all_element (vec str L) (vec pattern L)
                 (getByteSearchFlags opts true) omit gl)
              (seq 0 L).
Proof.
  unfold stri_locate_all_fixed.
  destruct (stri__recycling_rule true [length str; length pattern])
    as [L| |]; simpl; try discriminate.
  intros H; injection H as <-. now exists L.
Qed.

Lemma firstlast_single (x y : option bytes) (opts : opts_fixed)
    (first gl : bool) :
  stri__locate_firstlast_fixed [x] [y] opts first gl
  = Returns [firstlast_record first gl x y].
Proof.
  unfold stri__locate_firstlast_fixed. simpl.
  now rewrite locate_firstlast_row_eq.
Qed.

Lemma all_single (x y : option bytes) (omit : bool) (opts : opts_fixed)
    (gl : bool) :
  stri_locate_all_fixed [x] [y] omit opts gl
  = Returns [locate_all_element (vec [x] 1) (vec [y] 1)
               (getByteSearchFlags opts true) omit gl 0].
Proof. reflexivity. Qed.

(** When the recycling rule answers [L], the three functions return [L]
    records, the i-th being what the subject [i mod ns] and the pattern
    [i mod np] give on their own. *)
Lemma vectorised_results (str pattern : list (option bytes))
    (opts : opts_fixed) (omit gl : bool) (L : nat) :
  stri__recycling_rule true [length str; length pattern] = Returns L ->
  exists (rf rl : matrix) (ra : list matrix),
    stri_locate_first_fixed str pattern opts gl = Returns rf /\
    stri_locate_last_fixed str pattern opts gl = Returns rl /\
    stri_locate_all_fixed str pattern omit opts gl = Returns ra /\
    length rf = L /\ length rl = L /\ length ra = L /\
    forall i, i < L ->
      let subject := nth (i mod length str) str None in
      let pat := nth (i mod length pattern) pattern None in
      nth_error rf i = Some (firstlast_record true gl subject pat) /\
      nth_error rl i = Some (firstlast_record false gl subject pat) /\
      nth_error ra i =
        Some (locate_all_element (vec [subject] 1) (vec [pat] 1)
                (getByteSearchFlags opts true) omit gl 0).
Proof.
  intros HL.
  unfold stri_locate_first_fixed, stri_locate_last_fixed,
    stri__locate_firstlast_fixed, stri_locate_all_fixed.
  rewrite HL. cbn [bind].
  do 3 eexists. repeat (split; [reflexivity |]).
  rewrite !length_map, !length_seq. repeat (split; [reflexivity |]).
  intros i Hi. cbn zeta. rewrite !nth_error_map_seq by trivial.
  rewrite !locate_firstlast_row_eq. repeat split.
Qed.

(** ** Recycling *)

(** C1. With [ns] subjects and [np] patterns: if one of the two is 0 every
    function returns an empty result; if both are positive and the smaller
    does not divide the larger every function fails with
    [RecyclingIncompatible]; otherwise each of first, last and all returns
    exactly [max ns np] records, and record [i] is the record that the
    subject [i mod ns] and the pattern [i mod np] give when they are
    searched on their own. *)
Theorem recycling_vectorised_length
    (str pattern : list (option bytes)) (opts : opts_fixed) (omit gl : bool) :
  let ns := length str in
  let np := length pattern in
  let L := Nat.max ns np in
  (ns = 0 \/ np = 0 ->
     stri_locate_first_fixed str pattern opts gl = Returns [] /\
     stri_locate_last_fixed str pattern opts gl = Returns [] /\
     stri_locate_all_fixed str pattern omit opts gl = Returns [])
  /\
  (ns <> 0 -> np <> 0 -> L mod Nat.min ns np <> 0 ->
     stri_locate_first_fixed str pattern opts gl = Throws RecyclingIncompatible /\
     stri_locate_last_fixed str pattern opts gl = Throws RecyclingIncompatible /\
     stri_locate_all_fixed str pattern omit opts gl
       = Throws RecyclingIncompatible)
  /\
  (ns <> 0 -> np <> 0 -> L mod Nat.min ns np = 0 ->
     exists (rf rl : matrix) (ra : list matrix),
       stri_locate_first_fixed str pattern opts gl = Returns rf /\
       stri_locate_last_fixed str pattern opts gl = Returns rl /\
       stri_locate_all_fixed str pattern omit opts gl = Returns ra /\
       length rf = L /\ length rl = L /\ length ra = L /\
       forall i, i < L ->
         let subject := nth (i mod ns) str None in
         let pat := nth (i mod np) pattern None in
         (exists r, nth_error rf i = Some r /\
            stri_locate_first_fixed [subject] [pat] opts gl = Returns [r]) /\
         (exists r, nth_error rl i = Some r /\
            stri_locate_last_fixed [subject] [pat] opts gl = Returns [r]) /\
         (exists m, nth_error ra i = Some m /\
            stri_locate_all_fixed [subject] [pat] omit opts gl = Returns [m])).
Proof.
  intros ns np L.
  pose proof (recycling_rule_two ns np) as Hrule. fold L in Hrule.
  split; [| split].
  - intros H0.
    assert (Hz : (ns =? 0) || (np =? 0) = true).
    { destruct H0 as [-> | ->]; [reflexivity | apply orb_true_r]. }
    rewrite Hz in Hrule.
    unfold stri_locate_first_fixed, stri_locate_last_fixed,
      stri__locate_firstlast_fixed, stri_locate_all_fixed.
    fold ns np. now rewrite Hrule.
  - intros Hs Hp Hm.
    apply Nat.eqb_neq in Hs, Hp, Hm. rewrite Hs, Hp, Hm in Hrule.
    unfold stri_locate_first_fixed, stri_locate_last_fixed,
      stri__locate_firstlast_fixed, stri_locate_all_fixed.
    fold ns np. now rewrite Hrule.
  - intros Hs Hp Hm.
    apply Nat.eqb_neq in Hs, Hp. apply Nat.eqb_eq in Hm.
    rewrite Hs, Hp, Hm in Hrule. cbn [orb] in Hrule.
    destruct (vectorised_results str pattern opts omit gl _ Hrule)
      as (rf & rl & ra & Hf & Hl & Ha & Lf & Ll & La & Hnth).
    exists rf, rl, ra. repeat (split; [assumption |]).
    intros i Hi subject pat.
    destruct (Hnth i Hi) as (Ef & El & Ea). fold ns np subject pat in Ef, El, Ea.
    repeat split; eexists; (split; [eassumption |]).
    + apply firstlast_single.
    + apply firstlast_single.
    + apply all_single.
Qed.

Lemma recycling_vectorised_length_witness :
  stri_locate_first_fixed [Some abcabc; Some xyz; Some aaaa] [Some bc]
    no_overlap false
  = Returns [(2, 3); (NA_INTEGER, NA_INTEGER); (NA_INTEGER, NA_INTEGER)]%Z
  /\ stri_locate_first_fixed
       [Some abcabc; Some xyz; Some aaaa; Some aa]
       [Some bc; Some aa; Some xyz] no_overlap false
     = Throws RecyclingIncompatible
  /\ stri_locate_all_fixed [] [Some bc] false no_overlap false = Returns [].
Proof.
  split; [reflexivity |]. split.
  - apply (recycling_vectorised_length
             [Some abcabc; Some xyz; Some aaaa; Some aa]
             [Some bc; Some aa; Some xyz] no_overlap false false);
      simpl; lia.
  - apply (recycling_vectorised_length [] [Some bc] no_overlap false false).
    now left.
Defined.

Lemma locate_all_single_cases (x y : option bytes) (flags : ByteSearchFlags) :
  let element := locate_all_element (vec [x] 1) (vec [y] 1) flags in
  match x, y with
  | Some s, Some p =>
      if length p =? 0
      then forall omit gl, element omit gl 0 = no_match_rows omit gl
      else
        ((forall j, ~ occurs_at p s j) /\
         forall omit gl, element omit gl 0 = no_match_rows omit gl)
        \/
        (exists k rest,
            sweep p s (resume_after (BYTESEARCH_OVERLAP flags) p) 0 (k :: rest)
            /\ forall omit gl,
                 element omit gl 0 = map (reported gl s p) (k :: rest))
  | _, _ => forall omit gl, element omit gl 0 = [NA_record]
  end.
Proof.
  exact (locate_all_element_cases (vec [x] 1) (vec [y] 1) flags 0).
Qed.

(** What the three functions hold at index [i], once they have returned. *)
Lemma results_at (str pattern : list (option bytes)) (opts : opts_fixed)
    (omit gl : bool) (rf rl : matrix) (ra : list matrix) (i : nat) :
  stri_locate_first_fixed str pattern opts gl = Returns rf ->
  stri_locate_last_fixed str pattern opts gl = Returns rl ->
  stri_locate_all_fixed str pattern omit opts gl = Returns ra ->
  i < length rf ->
  let subject := nth (i mod length str) str None in
  let pat := nth (i mod length pattern) pattern None in
  nth_error rf i = Some (firstlast_record true gl subject pat) /\
  nth_error rl i = Some (firstlast_record false gl subject pat) /\
  nth_error ra i =
    Some (locate_all_element (vec [subject] 1) (vec [pat] 1)
            (getByteSearchFlags opts true) omit gl 0).
Proof.
  intros Hf Hl Ha Hi.
  destruct (firstlast_returns _ _ _ _ _ _ Hf) as (L & HL & Hrows).
  destruct (vectorised_results str pattern opts omit gl _ HL)
    as (rf' & rl' & ra' & Hf' & Hl' & Ha' & Lf & _ & _ & Hnth).
  rewrite Hf in Hf'; injection Hf' as <-.
  rewrite Hl in Hl'; injection Hl' as <-.
  rewrite Ha in Ha'; injection Ha' as <-.
  apply Hnth. lia.
Qed.

(** ** Sentinel records *)

(** C5. At an index whose subject or pattern is [NA], first and last hold
    the [NA] record, whatever [get_length] is, and all holds a matrix of one
    [NA] row. *)
Theorem NA_input_gives_NA_record
    (str pattern : list (option bytes)) (opts : opts_fixed)
    (omit gl : bool) (rf rl : matrix) (ra : list matrix) (i : nat) :
  stri_locate_first_fixed str pattern opts gl = Returns rf ->
  stri_locate_last_fixed str pattern opts gl = Returns rl ->
  stri_locate_all_fixed str pattern omit opts gl = Returns ra ->
  i < length rf ->
  nth (i mod length str) str None = None
    \/ nth (i mod length pattern) pattern None = None ->
  nth_error rf i = Some (NA_INTEGER, NA_INTEGER) /\
  nth_error rl i = Some (NA_INTEGER, NA_INTEGER) /\
  nth_error ra i = Some [(NA_INTEGER, NA_INTEGER)].
Proof.
  intros Hf Hl Ha Hi HNA.
  destruct (results_at _ _ _ _ _ _ _ _ i Hf Hl Ha Hi) as (Ef & El & Ea).
  rewrite Ef, El, Ea.
  pose proof (locate_all_single_cases
    (nth (i mod length str) str None)
    (nth (i mod length pattern) pattern None)
    (getByteSearchFlags opts true)) as Hall.
  cbv zeta in Hall. unfold firstlast_record.
  destruct HNA as [HNA | HNA]; rewrite HNA in *.
  - now rewrite Hall.
  - destruct (nth (i mod length str) str None); now rewrite Hall.
Qed.

Lemma NA_input_gives_NA_record_witness :
  nth_error [(2, 3); (NA_INTEGER, NA_INTEGER)]%Z 1
    = Some (NA_INTEGER, NA_INTEGER) /\
  nth_error [(5, 6); (NA_INTEGER, NA_INTEGER)]%Z 1
    = Some (NA_INTEGER, NA_INTEGER) /\
  nth_error [[(2, 3); (5, 6)]; [(NA_INTEGER, NA_INTEGER)]]%Z 1
    = Some [(NA_INTEGER, NA_INTEGER)].
Proof.
  apply (NA_input_gives_NA_record [Some abcabc; None] [Some bc]
           no_overlap true false _ _ _ 1);
    simpl; [reflexivity | reflexivity | reflexivity | lia | now left].
Defined.

(** C6. At an index whose pattern is the empty string and whose subject is
    not [NA], first and last hold [(-1,-1)] in length mode and the [NA]
    record otherwise. *)
Theorem empty_pattern_record
    (str pattern : list (option bytes)) (opts : opts_fixed)
    (gl : bool) (rf rl : matrix) (i : nat) (s : bytes) :
  stri_locate_first_fixed str pattern opts gl = Returns rf ->
  stri_locate_last_fixed str pattern opts gl = Returns rl ->
  i < length rf ->
  nth (i mod length str) str None = Some s ->
  nth (i mod length pattern) pattern None = Some [] ->
  nth_error rf i
    = Some (if gl then (-1, -1)%Z else (NA_INTEGER, NA_INTEGER)) /\
  nth_error rl i
    = Some (if gl then (-1, -1)%Z else (NA_INTEGER, NA_INTEGER)).
Proof.
  intros Hf Hl Hi Hs Hp.
  destruct (firstlast_returns _ _ _ _ _ _ Hf) as (L & HL & Ef).
  destruct (firstlast_returns _ _ _ _ _ _ Hl) as (L' & HL' & El).
  rewrite HL in HL'; injection HL' as <-.
  assert (HiL : i < L) by (rewrite Ef, length_map, length_seq in Hi; lia).
  rewrite Ef, El, !nth_error_map_seq by trivial.
  now rewrite Hs, Hp.
Qed.

Lemma empty_pattern_record_witness :
  nth_error [(-1, -1); (-1, -1)]%Z 1 = Some (-1, -1)%Z /\
  nth_error [(-1, -1); (-1, -1)]%Z 1 = Some (-1, -1)%Z.
Proof.
  apply (empty_pattern_record [Some abcabc; Some xyz] [Some []]
           no_overlap true _ _ 1 xyz);
    simpl; solve [reflexivity | lia].
Defined.

(** C7. At an index with a subject, a non-empty pattern and no occurrence
    of the pattern in the subject, first and last hold [(-1,-1)] in length
    mode and the [NA] record otherwise. *)
Theorem no_match_record
    (str pattern : list (option bytes)) (opts : opts_fixed)
    (gl : bool) (rf rl : matrix) (i : nat) (s p : bytes) :
  stri_locate_first_fixed str pattern opts gl = Returns rf ->
  stri_locate_last_fixed str pattern opts gl = Returns rl ->
  i < length rf ->
  nth (i mod length str) str None = Some s ->
  nth (i mod length pattern) pattern None = Some p ->
  p <> [] ->
  (forall k, ~ occurs_at p s k) ->
  nth_error rf i
    = Some (if gl then (-1, -1)%Z else (NA_INTEGER, NA_INTEGER)) /\
  nth_error rl i
    = Some (if gl then (-1, -1)%Z else (NA_INTEGER, NA_INTEGER)).
Proof.
  intros Hf Hl Hi Hs Hp Hne Hno.
  destruct (firstlast_returns _ _ _ _ _ _ Hf) as (L & HL & Ef).
  destruct (firstlast_returns _ _ _ _ _ _ Hl) as (L' & HL' & El).
  rewrite HL in HL'; injection HL' as <-.
  assert (HiL : i < L) by (rewrite Ef, length_map, length_seq in Hi; lia).
  rewrite Ef, El, !nth_error_map_seq by trivial.
  rewrite Hs, Hp. unfold firstlast_record.
  unfold not_found. destruct (length p =? 0) eqn:E; [now split |].
  pose proof (find_first_spec p s Hne) as H1.
  pose proof (find_last_spec p s Hne) as H2.
  destruct (scan_forward p s 0) as [k|]; [destruct (Hno k); apply H1 |].
  destruct (scan_backward p s 0) as [k|]; [destruct (Hno k); apply H2 |].
  now split.
Qed.

Lemma no_match_record_witness :
  nth_error [(2, 3); (NA_INTEGER, NA_INTEGER)]%Z 1
    = Some (NA_INTEGER, NA_INTEGER) /\
  nth_error [(5, 6); (NA_INTEGER, NA_INTEGER)]%Z 1
    = Some (NA_INTEGER, NA_INTEGER).
Proof.
  apply (no_match_record [Some abcabc; Some xyz] [Some bc]
           no_overlap false _ _ 1 xyz bc);
    try reflexivity; [simpl; lia | discriminate |].
  apply no_occurrence_by_search; [discriminate | reflexivity].
Defined.

(** C8. At an index with a subject and a pattern, where the pattern is empty
    or does not occur in the subject, all holds no row when [omit_no_match]
    is set, and otherwise one row, [(-1,-1)] in length mode and the [NA]
    row if not. *)
Theorem all_without_match
    (str pattern : list (option bytes)) (opts : opts_fixed)
    (omit gl : bool) (ra : list matrix) (i : nat) (s p : bytes) :
  stri_locate_all_fixed str pattern omit opts gl = Returns ra ->
  i < length ra ->
  nth (i mod length str) str None = Some s ->
  nth (i mod length pattern) pattern None = Some p ->
  p = [] \/ (forall k, ~ occurs_at p s k) ->
  nth_error ra i
    = Some (if omit then []
            else [if gl then (-1, -1)%Z else (NA_INTEGER, NA_INTEGER)]).
Proof.
  intros Ha Hi Hs Hp Hno.
  destruct (all_returns _ _ _ _ _ _ Ha) as (L & HL & Ea).
  assert (HiL : i < L) by (rewrite Ea, length_map, length_seq in Hi; lia).
  rewrite Ea, nth_error_map_seq by trivial. f_equal.
  pose proof (locate_all_element_cases (vec str L) (vec pattern L)
                (getByteSearchFlags opts true) i) as Hall.
  rewrite !str_get_vec, Hs, Hp in Hall.
  change (if omit then [] else [if gl then (-1, -1)%Z
                                else (NA_INTEGER, NA_INTEGER)])
    with (no_match_rows omit gl).
  destruct (length p =? 0) eqn:E; [apply Hall |].
  destruct Hno as [-> | Hno]; [discriminate |].
  destruct Hall as [[_ Hall] | (k & rest & Hsw & _)]; [apply Hall |].
  inversion Hsw; subst. now destruct (Hno k).
Qed.

Lemma all_without_match_witness :
  nth_error [[(2, 2); (5, 2)]; [(-1, -1)]]%Z 1 = Some [(-1, -1)%Z].
Proof.
  apply (all_without_match [Some abcabc; Some xyz] [Some bc]
           no_overlap false true _ 1 xyz bc);
    try reflexivity; [vm_compute; lia |].
  right. apply no_occurrence_by_search; [discriminate | reflexivity].
Defined.

(** ** First and last *)

(** C9. When the pattern occurs exactly once in the subject, first and last
    return the same record, under the same options and [get_length]. *)
Theorem first_last_agree_on_single_occurrence
    (s p : bytes) (opts : opts_fixed) (gl : bool) (k : nat) :
  occurs_at p s k ->
  (forall j, occurs_at p s j -> j = k) ->
  stri_locate_first_fixed [Some s] [Some p] opts gl
  = stri_locate_last_fixed [Some s] [Some p] opts gl.
Proof.
  intros Hk Huniq.
  unfold stri_locate_first_fixed, stri_locate_last_fixed.
  rewrite !firstlast_single. do 2 f_equal.
  unfold firstlast_record.
  destruct (length p =? 0) eqn:E; [reflexivity |].
  apply length_zero_nil in E.
  pose proof (find_first_spec p s E) as H1.
  pose proof (find_last_spec p s E) as H2.
  destruct (scan_forward p s 0) as [k1|]; [| now destruct (H1 k)].
  destruct (scan_backward p s 0) as [k2|]; [| now destruct (H2 k)].
  destruct H1 as [H1 _], H2 as [H2 _].
  now rewrite (Huniq _ H1), (Huniq _ H2).
Qed.

Lemma first_last_agree_on_single_occurrence_witness :
  stri_locate_first_fixed [Some e_acute_bc] [Some bc] no_overlap false
  = stri_locate_last_fixed [Some e_acute_bc] [Some bc] no_overlap false.
Proof.
  apply (first_last_agree_on_single_occurrence e_acute_bc bc no_overlap
           false 2).
  - reflexivity.
  - apply unique_occurrence_by_search; [discriminate | reflexivity ..].
Defined.

(** ** The list containers *)

Section ContainerFacts.

Variable slot : Type.
Variable elem : Type.
Variable slot_isNA : slot -> bool.
Variable slot_deref : slot -> outcome elem.
Variable class_name : string.

Local Open Scope Z_scope.

Lemma guard_in_range (c : Container.container slot) (i : Z) (ndebug : bool) :
  Container.in_range c i ->
  negb ndebug && ((i <? 0) || (Container.nrecycle c <=? i)) = false.
Proof.
  intros [H0 H1].
  destruct (Z.ltb_spec i 0); [lia |].
  destruct (Z.leb_spec (Container.nrecycle c) i); [lia |].
  apply andb_false_r.
Qed.

Lemma guard_out_of_range (c : Container.container slot) (i : Z) :
  ~ Container.in_range c i ->
  negb false && ((i <? 0) || (Container.nrecycle c <=? i)) = true.
Proof.
  unfold Container.in_range. intros H.
  destruct (Z.ltb_spec i 0); [reflexivity |].
  destruct (Z.leb_spec (Container.nrecycle c) i); [reflexivity | lia].
Qed.

(** The recycling invariant: an index below [nrecycle] reads the slot
    [i mod n], which exists. *)
Lemma data_at_in_range (c : Container.container slot) (i : Z) :
  Container.wf c -> Container.in_range c i ->
  exists s,
    nth_error (Container.data c) (Z.to_nat (i mod Container.n c)) = Some s
    /\ Container.data_at c i = Returns s.
Proof.
  intros [Hlen Hpos] [H0 H1]. unfold Container.data_at.
  assert (Hn : 0 < Container.n c) by (apply Hpos; lia).
  destruct (Z.eqb_spec (Container.n c) 0); [lia |].
  rewrite Z.rem_mod_nonneg by lia.
  pose proof (Z.mod_pos_bound i (Container.n c) Hn) as Hb.
  destruct (Z.ltb_spec (i mod Container.n c) 0); [lia |].
  destruct (nth_error (Container.data c) (Z.to_nat (i mod Container.n c)))
    as [s|] eqn:E.
  - now exists s.
  - apply nth_error_None in E. lia.
Qed.

Lemma isNA_in_range (c : Container.container slot) (i : Z) (s : slot)
    (ndebug : bool) :
  Container.in_range c i -> Container.data_at c i = Returns s ->
  Container.isNA slot_isNA class_name ndebug c i = Returns (slot_isNA s).
Proof.
  intros Hi Hs. unfold Container.isNA.
  now rewrite guard_in_range, Hs.
Qed.

Lemma get_in_range (c : Container.container slot) (i : Z) (s : slot)
    (ndebug : bool) :
  Container.in_range c i -> Container.data_at c i = Returns s ->
  Container.get slot_isNA slot_deref class_name ndebug c i =
  if negb ndebug && slot_isNA s
  then Throws (AccessOfNA (class_name ++ "::get(): isNA"))
  else slot_deref s.
Proof.
  intros Hi Hs. unfold Container.get.
  now rewrite guard_in_range, Hs.
Qed.

Lemma debug_out_of_range (c : Container.container slot) (i : Z) :
  ~ Container.in_range c i ->
  Container.isNA slot_isNA class_name false c i
    = Throws (IndexOutOfBounds (class_name ++ "::isNA(): INDEX OUT OF BOUNDS"))
  /\ Container.get slot_isNA slot_deref class_name false c i
    = Throws (IndexOutOfBounds (class_name ++ "::get(): INDEX OUT OF BOUNDS")).
Proof.
  intros Hi. unfold Container.isNA, Container.get.
  now rewrite guard_out_of_range.
Qed.

End ContainerFacts.

(** C10. For both list containers and an index [0 <= i < nrecycle], [isNA]
    and [get] read the element [i mod n]; in a debug build [get] returns
    that element exactly when [isNA] answers false and throws on an [NA]
    element, and both throw on an index out of bounds; a release build
    makes no check and reads the element [i mod n] at once. *)
Theorem list_containers_recycled_access
    (IntVec : Type) (IntVec_isNA : IntVec -> bool)
    (cu : StriContainerListUTF8.container)
    (ci : StriContainerListInt.container IntVec) (i : Z) :
  Container.wf cu -> Container.wf ci ->
  ((0 <= i < Container.nrecycle cu)%Z ->
     exists p,
       nth_error (Container.data cu) (Z.to_nat (i mod Container.n cu)) = Some p
       /\ (forall ndebug,
             StriContainerListUTF8.isNA ndebug cu i
             = Returns (match p with None => true | Some _ => false end))
       /\ StriContainerListUTF8.get false cu i
          = match p with
            | Some e => Returns e
            | None => Throws (AccessOfNA "StriContainerListUTF8::get(): isNA")
            end
       /\ StriContainerListUTF8.get true cu i
          = match p with
            | Some e => Returns e
            | None => Undefined
            end
       /\ ((exists e, StriContainerListUTF8.get false cu i
                      = Returns e)
           <-> StriContainerListUTF8.isNA false cu i
               = Returns false))
  /\
  (~ (0 <= i < Container.nrecycle cu)%Z ->
     StriContainerListUTF8.isNA false cu i
     = Throws (IndexOutOfBounds
                 "StriContainerListUTF8::isNA(): INDEX OUT OF BOUNDS")
     /\ StriContainerListUTF8.get false cu i
        = Throws (IndexOutOfBounds
                    "StriContainerListUTF8::get(): INDEX OUT OF BOUNDS"))
  /\
  ((0 <= i < Container.nrecycle ci)%Z ->
     exists v,
       nth_error (Container.data ci) (Z.to_nat (i mod Container.n ci)) = Some v
       /\ (forall ndebug,
             StriContainerListInt.isNA IntVec IntVec_isNA ndebug ci i
             = Returns (IntVec_isNA v))
       /\ StriContainerListInt.get IntVec IntVec_isNA false ci i
          = (if IntVec_isNA v
             then Throws (AccessOfNA "StriContainerListInt::get(): isNA")
             else Returns v)
       /\ StriContainerListInt.get IntVec IntVec_isNA true ci i = Returns v
       /\ ((exists e, StriContainerListInt.get IntVec IntVec_isNA false ci i
                      = Returns e)
           <-> StriContainerListInt.isNA IntVec IntVec_isNA false ci i
               = Returns false))
  /\
  (~ (0 <= i < Container.nrecycle ci)%Z ->
     StriContainerListInt.isNA IntVec IntVec_isNA false ci i
     = Throws (IndexOutOfBounds
                 "StriContainerListInt::isNA(): INDEX OUT OF BOUNDS")
     /\ StriContainerListInt.get IntVec IntVec_isNA false ci i
        = Throws (IndexOutOfBounds
                    "StriContainerListInt::get(): INDEX OUT OF BOUNDS")).
Proof.
  intros Hwu Hwi. split; [| split; [| split]].
  - intros Hi.
    destruct (data_at_in_range _ cu i Hwu Hi) as (p & Hnth & Hat).
    exists p. split; [exact Hnth |].
    unfold StriContainerListUTF8.isNA, StriContainerListUTF8.get.
    assert (HisNA : forall ndebug,
      Container.isNA StriContainerListUTF8.slot_isNA
        "StriContainerListUTF8" ndebug cu i
      = Returns (match p with None => true | Some _ => false end)).
    { intros nd. now rewrite (isNA_in_range _ _ _ cu i p nd Hi Hat). }
    rewrite !(get_in_range _ _ _ _ _ cu i p _ Hi Hat), HisNA.
    destruct p as [e|]; simpl; repeat split; trivial; try discriminate.
    + now exists e.
    + intros [e He]; discriminate.
  - intros Hi. now apply debug_out_of_range.
  - intros Hi.
    destruct (data_at_in_range _ ci i Hwi Hi) as (v & Hnth & Hat).
    exists v. split; [exact Hnth |].
    unfold StriContainerListInt.isNA, StriContainerListInt.get.
    assert (HisNA : forall ndebug,
      Container.isNA IntVec_isNA "StriContainerListInt" ndebug ci i
      = Returns (IntVec_isNA v)).
    { intros nd. now rewrite (isNA_in_range _ _ _ ci i v nd Hi Hat). }
    rewrite !(get_in_range _ _ _ _ _ ci i v _ Hi Hat), HisNA.
    destruct (IntVec_isNA v); simpl; repeat split; trivial; try discriminate.
    + intros [e He]; discriminate.
    + now exists v.
  - intros Hi. now apply debug_out_of_range.
Qed.

Lemma list_containers_recycled_access_witness :
  (exists p,
     nth_error (Container.data two_of_four_utf8) (Z.to_nat (3 mod 2)) = Some p
     /\ StriContainerListUTF8.get false two_of_four_utf8 3
        = match p with
          | Some e => Returns e
          | None => Throws (AccessOfNA "StriContainerListUTF8::get(): isNA")
          end)
  /\
  (StriContainerListInt.isNA (list Z) empty_is_NA false two_of_four_int 4
   = Throws (IndexOutOfBounds
               "StriContainerListInt::isNA(): INDEX OUT OF BOUNDS")
   /\ StriContainerListInt.get (list Z) empty_is_NA false two_of_four_int 4
      = Throws (IndexOutOfBounds
                  "StriContainerListInt::get(): INDEX OUT OF BOUNDS")).
Proof.
  assert (Hwu : Container.wf two_of_four_utf8)
    by (split; [reflexivity | simpl; lia]).
  assert (Hwi : Container.wf two_of_four_int)
    by (split; [reflexivity | simpl; lia]).
  split.
  - destruct (list_containers_recycled_access (list Z)
                empty_is_NA two_of_four_utf8 two_of_four_int 3 Hwu Hwi)
      as (Hin & _).
    destruct Hin as (p & Hnth & _ & Hget & _); [simpl; lia |].
    exists p. now split.
  - apply (list_containers_recycled_access (list Z)
             empty_is_NA two_of_four_utf8 two_of_four_int 4 Hwu Hwi).
    simpl; lia.
Defined.

(** ** Code point coordinates *)

Lemma firstn_plus {A : Type} (k m : nat) (l : list A) :
  firstn (k + m) l = firstn k l ++ firstn m (skipn k l).
Proof.
  revert l; induction k as [|k IH]; intros [|a l]; simpl; trivial.
  - now rewrite firstn_nil.
  - now rewrite IH.
Qed.

Lemma count_leads_app (a b : bytes) :
  count_leads (a ++ b) = count_leads a + count_leads b.
Proof. unfold count_leads. now rewrite filter_app, length_app. Qed.

Lemma count_leads_cons (b : byte) (l : bytes) :
  count_leads (b :: l) = (if is_trail b then 0 else 1) + count_leads l.
Proof. unfold count_leads; simpl. now destruct (is_trail b). Qed.

Local Open Scope Z_scope.

(** The scan answers the number of code points that start before the
    offset. *)
Lemma byte_to_codepoint_scan_count (buf : bytes) :
  forall i8 i32 offset,
    i8 <= offset ->
    byte_to_codepoint_scan buf i8 i32 offset
    = i32 + Z.of_nat (count_leads (firstn (Z.to_nat (offset - i8)) buf)).
Proof.
  induction buf as [|b rest IH]; intros i8 i32 offset Hle; simpl.
  - rewrite firstn_nil. unfold count_leads; simpl. lia.
  - destruct (Z.leb_spec offset i8) as [H|H].
    + replace (offset - i8) with 0 by lia. unfold count_leads; simpl. lia.
    + rewrite IH by lia.
      replace (Z.to_nat (offset - i8))
        with (S (Z.to_nat (offset - (i8 + 1)))) by lia.
      rewrite firstn_cons, count_leads_cons.
      destruct (is_trail b); lia.
Qed.

Lemma byte_to_codepoint_count (s : bytes) (k : nat) :
  byte_to_codepoint s (Z.of_nat k) = Z.of_nat (count_leads (firstn k s)).
Proof.
  unfold byte_to_codepoint.
  rewrite byte_to_codepoint_scan_count by lia.
  now rewrite Z.sub_0_r, Nat2Z.id.
Qed.

(** The record of a match in terms of counts of code points: the match
    begins after the code points of the prefix and covers those of the
    pattern. *)
Lemma reported_count (gl : bool) (s p : bytes) (k : nat) :
  occurs_at p s k ->
  reported gl s p k =
  let before := Z.of_nat (count_leads (firstn k s)) in
  let inside := Z.of_nat (count_leads p) in
  if gl then (before + 1, inside) else (before + 1, before + inside).
Proof.
  intros Hocc. unfold occurs_at in Hocc. unfold reported.
  rewrite <- Nat2Z.inj_add, !byte_to_codepoint_count.
  rewrite firstn_plus, count_leads_app, Hocc.
  cbv zeta. destruct gl; f_equal; lia.
Qed.

Lemma utf8_starts_with_lead (p : bytes) :
  is_utf8 p = true -> p <> [] -> (0 < count_leads p)%nat.
Proof.
  destruct p as [|b r]; [easy |]. unfold is_utf8; simpl.
  intros H _. apply andb_true_iff in H. destruct H as [H _].
  rewrite count_leads_cons. destruct (is_trail b); [discriminate | lia].
Qed.

Lemma same_match_sentinels :
  same_match (not_found true) (not_found false)
  /\ same_match NA_record NA_record.
Proof. split; split; try reflexivity; discriminate. Qed.

Lemma same_match_reported (s p : bytes) (k : nat) :
  occurs_at p s k ->
  same_match (reported true s p k) (reported false s p k).
Proof.
  intros Hocc. rewrite !reported_count by trivial. cbv zeta.
  unfold same_match, is_sentinel, NA_INTEGER; simpl.
  set (a := Z.of_nat (count_leads (firstn k s))).
  set (c := Z.of_nat (count_leads p)).
  assert (Ha : 0 <= a) by (unfold a; lia).
  destruct (Z.eqb_spec (a + 1) (-2147483648)); [lia |].
  destruct (Z.eqb_spec (a + 1) (-1)); [lia |].
  simpl. split; [reflexivity |]. intros _. lia.
Qed.

Lemma positions_ordered_reported (s p : bytes) (k : nat) :
  is_utf8 p = true -> p <> [] -> occurs_at p s k ->
  positions_ordered (reported false s p k).
Proof.
  intros Hu Hne Hocc _. rewrite reported_count by trivial. simpl.
  pose proof (utf8_starts_with_lead p Hu Hne). lia.
Qed.

(** Every offset of a sweep is an occurrence. *)
Lemma sweep_occurs (p s : bytes) (resume : nat -> nat) (from : nat)
    (ks : list nat) :
  sweep p s resume from ks -> Forall (occurs_at p s) ks.
Proof. induction 1; constructor; trivial. Qed.

Lemma Forall2_map_same {A B C : Type} (R : B -> C -> Prop)
    (f : A -> B) (g : A -> C) (l : list A) :
  (forall x, In x l -> R (f x) (g x)) -> Forall2 R (map f l) (map g l).
Proof.
  induction l as [|a l IH]; intros H; simpl; constructor.
  - apply H. now left.
  - apply IH. intros x Hx. apply H. now right.
Qed.

Lemma Forall_map_all {A B : Type} (P : B -> Prop) (f : A -> B) (l : list A) :
  (forall x, In x l -> P (f x)) -> Forall P (map f l).
Proof.
  intros H. apply Forall_forall. intros y Hy.
  apply in_map_iff in Hy. destruct Hy as (x & <- & Hx). now apply H.
Qed.

Lemma nth_utf8_or_NA (pattern : list (option bytes)) (k : nat) :
  Forall (fun p => is_utf8_or_NA p = true) pattern ->
  is_utf8_or_NA (nth k pattern None) = true.
Proof.
  intros H. revert k. induction H as [|p l Hp Hl IH]; intros [|k]; simpl;
    trivial.
Qed.

Lemma firstlast_found_occurs (first : bool) (s p : bytes) (k : nat) :
  p <> [] ->
  (if first then scan_forward p s 0 else scan_backward p s 0) = Some k ->
  occurs_at p s k.
Proof.
  intros Hp H. destruct first.
  - pose proof (find_first_spec p s Hp) as Hs. rewrite H in Hs. apply Hs.
  - pose proof (find_last_spec p s Hp) as Hs. rewrite H in Hs. apply Hs.
Qed.

Lemma firstlast_record_same (first : bool) (x y : option bytes) :
  same_match (firstlast_record first true x y)
             (firstlast_record first false x y).
Proof.
  unfold firstlast_record.
  destruct x as [s|]; [| apply same_match_sentinels].
  destruct y as [p|]; [| apply same_match_sentinels].
  destruct (length p =? 0)%nat eqn:E; [apply same_match_sentinels |].
  apply length_zero_nil in E.
  destruct (if first then scan_forward p s 0 else scan_backward p s 0)
    as [k|] eqn:Ek; [| apply same_match_sentinels].
  apply same_match_reported. now apply (firstlast_found_occurs first).
Qed.

Lemma firstlast_record_ordered (first : bool) (x y : option bytes) :
  is_utf8_or_NA y = true ->
  positions_ordered (firstlast_record first false x y).
Proof.
  unfold firstlast_record. intros Hu.
  destruct x as [s|]; [| discriminate].
  destruct y as [p|]; [| discriminate].
  destruct (length p =? 0)%nat eqn:E; [discriminate |].
  apply length_zero_nil in E.
  destruct (if first then scan_forward p s 0 else scan_backward p s 0)
    as [k|] eqn:Ek; [| discriminate].
  apply positions_ordered_reported; trivial.
  now apply (firstlast_found_occurs first).
Qed.

Lemma no_match_rows_same (omit : bool) :
  Forall2 same_match (no_match_rows omit true) (no_match_rows omit false).
Proof.
  unfold no_match_rows. destruct omit; repeat constructor; discriminate.
Qed.

Lemma no_match_rows_ordered (omit : bool) :
  Forall positions_ordered (no_match_rows omit false).
Proof.
  unfold no_match_rows. destruct omit; repeat constructor. discriminate.
Qed.

Lemma locate_all_element_same
    (sc pc : StriContainerUTF8) (flags : ByteSearchFlags) (omit : bool)
    (i : nat) :
  Forall2 same_match (locate_all_element sc pc flags omit true i)
                     (locate_all_element sc pc flags omit false i).
Proof.
  pose proof (locate_all_element_cases sc pc flags i) as H.
  destruct (str_get sc i) as [s|];
    [| rewrite !H; repeat constructor; discriminate].
  destruct (str_get pc i) as [p|];
    [| rewrite !H; repeat constructor; discriminate].
  destruct (length p =? 0)%nat; [rewrite !H; apply no_match_rows_same |].
  destruct H as [[_ H] | (k & rest & Hsw & H)]; rewrite !H.
  - apply no_match_rows_same.
  - apply Forall2_map_same. intros j Hj. apply same_match_reported.
    apply sweep_occurs in Hsw. rewrite Forall_forall in Hsw. now apply Hsw.
Qed.

Lemma locate_all_element_ordered
    (sc pc : StriContainerUTF8) (flags : ByteSearchFlags) (omit : bool)
    (i : nat) :
  is_utf8_or_NA (str_get pc i) = true ->
  Forall positions_ordered (locate_all_element sc pc flags omit false i).
Proof.
  intros Hu.
  pose proof (locate_all_element_cases sc pc flags i) as H.
  destruct (str_get sc i) as [s|];
    [| rewrite !H; repeat constructor; discriminate].
  destruct (str_get pc i) as [p|];
    [| rewrite !H; repeat constructor; discriminate].
  destruct (length p =? 0)%nat eqn:E;
    [rewrite !H; apply no_match_rows_ordered |].
  apply length_zero_nil in E.
  destruct H as [[_ H] | (k & rest & Hsw & H)]; rewrite !H.
  - apply no_match_rows_ordered.
  - apply Forall_map_all. intros j Hj.
    apply positions_ordered_reported; trivial.
    apply sweep_occurs in Hsw. rewrite Forall_forall in Hsw. now apply Hsw.
Qed.

(** ** Length mode and position mode *)

(** C4. Run on the same inputs with and without [get_length], each of
    first, last and all returns records that correspond one to one: where
    the one is a sentinel so is the other, and a record [(start, length)]
    of length mode stands against the record [(start, end)] of position
    mode with [end = start + length - 1]; every record of position mode
    that is not a sentinel has [end >= start].  Patterns are valid UTF-8
    or [NA], as the argument preparation leaves them. *)
Theorem length_mode_matches_position_mode
    (str pattern : list (option bytes)) (opts : opts_fixed) (omit : bool)
    (rfl rfp rll rlp : matrix) (ral rap : list matrix) :
  Forall (fun p => is_utf8_or_NA p = true) pattern ->
  stri_locate_first_fixed str pattern opts true = Returns rfl ->
  stri_locate_first_fixed str pattern opts false = Returns rfp ->
  stri_locate_last_fixed str pattern opts true = Returns rll ->
  stri_locate_last_fixed str pattern opts false = Returns rlp ->
  stri_locate_all_fixed str pattern omit opts true = Returns ral ->
  stri_locate_all_fixed str pattern omit opts false = Returns rap ->
  Forall2 same_match rfl rfp /\ Forall positions_ordered rfp /\
  Forall2 same_match rll rlp /\ Forall positions_ordered rlp /\
  Forall2 (Forall2 same_match) ral rap /\
  Forall (Forall positions_ordered) rap.
Proof.
  intros Hu Hfl Hfp Hll Hlp Hal Hap.
  destruct (firstlast_returns _ _ _ _ _ _ Hfl) as (L & HL & ->).
  destruct (firstlast_returns _ _ _ _ _ _ Hfp) as (L1 & HL1 & ->).
  destruct (firstlast_returns _ _ _ _ _ _ Hll) as (L2 & HL2 & ->).
  destruct (firstlast_returns _ _ _ _ _ _ Hlp) as (L3 & HL3 & ->).
  destruct (all_returns _ _ _ _ _ _ Hal) as (L4 & HL4 & ->).
  destruct (all_returns _ _ _ _ _ _ Hap) as (L5 & HL5 & ->).
  rewrite HL in HL1, HL2, HL3, HL4, HL5.
  injection HL1 as <-. injection HL2 as <-. injection HL3 as <-.
  injection HL4 as <-. injection HL5 as <-.
  repeat split.
  - apply Forall2_map_same. intros i _. apply firstlast_record_same.
  - apply Forall_map_all. intros i _. apply firstlast_record_ordered.
    now apply nth_utf8_or_NA.
  - apply Forall2_map_same. intros i _. apply firstlast_record_same.
  - apply Forall_map_all. intros i _. apply firstlast_record_ordered.
    now apply nth_utf8_or_NA.
  - apply Forall2_map_same. intros i _. apply locate_all_element_same.
  - apply Forall_map_all. intros i _. apply locate_all_element_ordered.
    rewrite str_get_vec. now apply nth_utf8_or_NA.
Qed.

Lemma length_mode_matches_position_mode_witness :
  Forall2 same_match [(2, 2); (-1, -1)]
                     [(2, 3); (NA_INTEGER, NA_INTEGER)] /\
  Forall positions_ordered [(2, 3); (NA_INTEGER, NA_INTEGER)] /\
  Forall2 same_match [(5, 2); (-1, -1)]
                     [(5, 6); (NA_INTEGER, NA_INTEGER)] /\
  Forall positions_ordered [(5, 6); (NA_INTEGER, NA_INTEGER)] /\
  Forall2 (Forall2 same_match)
    [[(2, 2); (5, 2)]; [(-1, -1)]]
    [[(2, 3); (5, 6)]; [(NA_INTEGER, NA_INTEGER)]] /\
  Forall (Forall positions_ordered)
    [[(2, 3); (5, 6)]; [(NA_INTEGER, NA_INTEGER)]].
Proof.
  apply (length_mode_matches_position_mode
           [Some abcabc; Some xyz] [Some bc] no_overlap false);
    try reflexivity.
  repeat constructor.
Defined.

(** ** All occurrences *)

Local Close Scope Z_scope.

(** A sweep is determined by its starting point. *)
Lemma sweep_unique (p s : bytes) (resume : nat -> nat) (from : nat)
    (ks ks' : list nat) :
  sweep p s resume from ks -> sweep p s resume from ks' -> ks = ks'.
Proof.
  intros H. revert ks'.
  induction H as [from Hnone | from k rest Hle Hocc Hmin Hrest IH];
    intros ks' H'; inversion H' as [from' Hnone' | from' k' rest' Hle' Hocc'
                                     Hmin' Hrest']; subst; trivial.
  - now destruct (Hnone k').
  - now destruct (Hnone' k).
  - assert (k = k').
    { destruct (Nat.lt_trichotomy k k') as [Hlt | [-> | Hgt]]; trivial.
      - destruct (Hmin' k); [lia | trivial].
      - destruct (Hmin k'); [lia | trivial]. }
    subst k'. f_equal. now apply IH.
Qed.

Lemma sweep_from (p s : bytes) (resume : nat -> nat) (from : nat)
    (ks : list nat) :
  (forall k, k <= resume k) ->
  sweep p s resume from ks -> Forall (fun k => from <= k) ks.
Proof.
  intros Hmono. induction 1 as [| from k rest Hle _ _ _ IH]; constructor;
    trivial.
  apply Forall_impl with (2 := IH). intros x Hx.
  pose proof (Hmono k). lia.
Qed.

(** Without overlap, the byte ranges of a sweep lie one after the other. *)
Lemma sweep_disjoint (p s : bytes) (from : nat) (ks : list nat) :
  sweep p s (resume_after false p) from ks ->
  ForallOrdPairs (fun k k' => k + length p <= k') ks.
Proof.
  induction 1 as [| from k rest Hle _ _ Hrest IH]; constructor; trivial.
  apply sweep_from in Hrest; [exact Hrest |].
  intros x. unfold resume_after. lia.
Qed.

(** C3. For a subject and a non-empty pattern that occurs in it, all
    returns one row per offset of the sweep that starts at offset 0, takes
    the leftmost occurrence each time and resumes at the end of the match
    -- or one byte after its start when overlap is requested --, in the
    order of discovery; there is no other such list of offsets; without
    overlap the byte ranges [[k, k + length p)] of any two rows are
    disjoint.  The pattern "aa" in "aaaa" gives two rows without overlap
    and three rows with overlap. *)
Theorem locate_all_is_the_greedy_sweep :
  (forall (s p : bytes) (opts : opts_fixed) (omit gl : bool),
     p <> [] ->
     (exists k, occurs_at p s k) ->
     exists ks,
       ks <> [] /\
       sweep p s (resume_after (overlap_allowed opts) p) 0 ks /\
       (forall ks',
          sweep p s (resume_after (overlap_allowed opts) p) 0 ks' ->
          ks' = ks) /\
       stri_locate_all_fixed [Some s] [Some p] omit opts gl
         = Returns [map (reported gl s p) ks] /\
       (overlap_allowed opts = false ->
        ForallOrdPairs (fun k k' => k + length p <= k') ks))
  /\ stri_locate_all_fixed [Some aaaa] [Some aa] false no_overlap false
     = Returns [[(1, 2); (3, 4)]%Z]
  /\ stri_locate_all_fixed [Some aaaa] [Some aa] false with_overlap false
     = Returns [[(1, 2); (2, 3); (3, 4)]%Z].
Proof.
  split; [| split; reflexivity].
  intros s p opts omit gl Hp [k0 Hk0].
  rewrite all_single.
  pose proof (locate_all_single_cases (Some s) (Some p)
                (getByteSearchFlags opts true)) as H.
  cbv zeta in H. cbn [getByteSearchFlags BYTESEARCH_OVERLAP andb] in H.
  destruct (length p =? 0) eqn:E;
    [destruct p; [easy | discriminate] |].
  destruct H as [[Hno _] | (k & rest & Hsw & H)]; [now destruct (Hno k0) |].
  exists (k :: rest). split; [discriminate |].
  split; [exact Hsw |]. split; [| split].
  - intros ks' Hks'. exact (sweep_unique _ _ _ _ _ _ Hks' Hsw).
  - now rewrite H.
  - intros Hov. rewrite Hov in Hsw. now apply sweep_disjoint in Hsw.
Qed.

Lemma locate_all_is_the_greedy_sweep_witness :
  exists ks,
    ks <> [] /\
    sweep aa aaaa (resume_after false aa) 0 ks /\
    (forall ks', sweep aa aaaa (resume_after false aa) 0 ks' -> ks' = ks) /\
    stri_locate_all_fixed [Some aaaa] [Some aa] false no_overlap false
      = Returns [map (reported false aaaa aa) ks] /\
    (false = false -> ForallOrdPairs (fun k k' => k + length aa <= k') ks).
Proof.
  apply (proj1 locate_all_is_the_greedy_sweep aaaa aa no_overlap false false).
  - discriminate.
  - exists 0. reflexivity.
Defined.

(** ** Matches and code point boundaries *)

Lemma utf8_char_inv (c : bytes) :
  utf8_char c = true ->
  exists l ts,
    c = l :: ts /\ is_trail l = false /\ length c = lead_width l /\
    Forall (fun b => is_trail b = true) ts.
Proof.
  destruct c as [|l ts]; [discriminate |]. unfold utf8_char.
  rewrite !andb_true_iff, negb_true_iff, Nat.eqb_eq, forallb_forall.
  intros [[Hl Hw] Hts]. exists l, ts. repeat split; trivial.
  now apply Forall_forall.
Qed.

Lemma app_eq_by_length {A : Type} (a b x y : list A) :
  length a = length b -> a ++ x = b ++ y -> a = b /\ x = y.
Proof.
  revert b; induction a as [|h a IH]; intros [|h' b] Hlen H; simpl in *;
    try discriminate.
  - now split.
  - injection H as -> H. destruct (IH b) as [-> ->]; [lia | trivial |].
    now split.
Qed.

(** Two encoded code points that open two equal byte strings are equal:
    the lead byte fixes the width. *)
Lemma utf8_char_prefix (c d x y : bytes) :
  utf8_char c = true -> utf8_char d = true ->
  c ++ x = d ++ y -> c = d /\ x = y.
Proof.
  intros Hc Hd H.
  destruct (utf8_char_inv c Hc) as (l & ts & -> & _ & Hw & _).
  destruct (utf8_char_inv d Hd) as (l' & ts' & -> & _ & Hw' & _).
  assert (l = l') by (simpl in H; congruence). subst l'.
  apply app_eq_by_length; [congruence | exact H].
Qed.

Lemma concat_chars_prefix (ps : list bytes) :
  forallb utf8_char ps = true ->
  forall (cs : list bytes) (t : bytes),
    forallb utf8_char cs = true ->
    concat ps ++ t = concat cs ->
    exists post, cs = ps ++ post /\ t = concat post.
Proof.
  induction ps as [|c ps IH]; intros Hps cs t Hcs H; simpl in *.
  - now exists cs.
  - apply andb_true_iff in Hps. destruct Hps as [Hc Hps].
    destruct cs as [|d cs]; simpl in *.
    + destruct (utf8_char_inv c Hc) as (l & ts & -> & _). discriminate.
    + apply andb_true_iff in Hcs. destruct Hcs as [Hd Hcs].
      rewrite <- app_assoc in H.
      destruct (utf8_char_prefix c d _ _ Hc Hd H) as [-> H'].
      destruct (IH Hps cs t Hcs H') as (post & -> & ->).
      now exists post.
Qed.

Lemma occurs_at_app (p s : bytes) (k : nat) :
  occurs_at p s k -> skipn k s = p ++ skipn (length p) (skipn k s).
Proof.
  unfold occurs_at. intros H.
  rewrite <- (firstn_skipn (length p) (skipn k s)) at 1. now rewrite H.
Qed.

Lemma concat_chars_nonempty (ps : list bytes) :
  forallb utf8_char ps = true -> ps <> [] ->
  exists l r, concat ps = l :: r /\ is_trail l = false.
Proof.
  destruct ps as [|c ps]; [easy |]. simpl. intros H _.
  apply andb_true_iff in H. destruct H as [Hc _].
  destruct (utf8_char_inv c Hc) as (l & ts & -> & Hl & _).
  now exists l, (ts ++ concat ps).
Qed.

Lemma skipn_trails (ts : bytes) (k : nat) :
  Forall (fun b => is_trail b = true) ts ->
  Forall (fun b => is_trail b = true) (skipn k ts).
Proof.
  intros H. rewrite <- (firstn_skipn k ts) in H.
  now apply Forall_app in H.
Qed.

(** A pattern made of whole code points occurs in a subject made of whole
    code points only at a boundary, and covers whole code points. *)
Lemma occurrence_on_boundaries (ps : list bytes) :
  forallb utf8_char ps = true -> ps <> [] ->
  forall (cs : list bytes) (k : nat),
    forallb utf8_char cs = true ->
    occurs_at (concat ps) (concat cs) k ->
    exists pre post,
      cs = pre ++ ps ++ post /\ k = length (concat pre).
Proof.
  intros Hps Hne.
  destruct (concat_chars_nonempty ps Hps Hne) as (l & r & Hp & Hl).
  assert (Hpne : concat ps <> []) by (rewrite Hp; discriminate).
  induction cs as [|c cs IH]; intros k Hcs Hocc.
  - apply occurs_at_bound in Hocc; trivial. simpl in Hocc.
    rewrite Hp in Hocc. simpl in Hocc. lia.
  - simpl in Hcs. apply andb_true_iff in Hcs. destruct Hcs as [Hc Hcs].
    destruct (Nat.eq_dec k 0) as [-> | Hk0].
    + apply occurs_at_app in Hocc. rewrite skipn_O in Hocc.
      symmetry in Hocc.
      destruct (concat_chars_prefix ps Hps (c :: cs)
                  (skipn (length (concat ps)) (concat (c :: cs))))
        as (post & E & _);
        [simpl; now rewrite Hc | exact Hocc |].
      exists [], post. now split.
    + destruct (Nat.lt_ge_cases k (length c)) as [Hlt | Hge].
      * exfalso.
        destruct (utf8_char_inv c Hc) as (l0 & ts & -> & _ & _ & Hts).
        destruct k as [|k]; [easy |]. simpl in Hlt.
        apply occurs_at_app in Hocc.
        change (concat ((l0 :: ts) :: cs)) with (l0 :: (ts ++ concat cs))
          in Hocc.
        rewrite skipn_cons, skipn_app in Hocc.
        pose proof (skipn_trails ts k Hts) as Htr.
        destruct (skipn k ts) as [|b rest] eqn:Es.
        { apply (f_equal (@length byte)) in Es.
          rewrite length_skipn in Es. simpl in Es. lia. }
        rewrite Hp in Hocc. simpl in Hocc. injection Hocc as Hb _.
        inversion Htr; subst. congruence.
      * assert (Hocc' : occurs_at (concat ps) (concat cs) (k - length c)).
        { unfold occurs_at in *. simpl concat in Hocc.
          rewrite skipn_app, skipn_all2 in Hocc by lia. exact Hocc. }
        destruct (IH (k - length c) Hcs Hocc') as (pre & post & -> & Hk).
        exists (c :: pre), post. split; [reflexivity |].
        simpl. rewrite length_app. lia.
Qed.

Lemma count_leads_char (c : bytes) :
  utf8_char c = true -> count_leads c = 1.
Proof.
  intros Hc. destruct (utf8_char_inv c Hc) as (l & ts & -> & Hl & _ & Hts).
  rewrite count_leads_cons, Hl.
  assert (count_leads ts = 0); [| lia].
  clear Hc. induction Hts as [|b ts Hb _ IH]; [reflexivity |].
  now rewrite count_leads_cons, Hb.
Qed.

(** The code points of a string are as many as its lead bytes. *)
Lemma count_leads_concat (cs : list bytes) :
  forallb utf8_char cs = true -> count_leads (concat cs) = length cs.
Proof.
  induction cs as [|c cs IH]; [reflexivity |]. simpl. intros H.
  apply andb_true_iff in H. destruct H as [Hc Hcs].
  now rewrite count_leads_app, count_leads_char, IH.
Qed.

(** ** The two descriptions of valid UTF-8 agree *)

Lemma lead_width_pos (b : byte) : 1 <= lead_width b.
Proof.
  unfold lead_width.
  destruct (byte_val b <? 128)%Z, (byte_val b <? 224)%Z,
    (byte_val b <? 240)%Z; lia.
Qed.

Lemma utf8_ok_trails (ts rest : bytes) :
  Forall (fun b => is_trail b = true) ts ->
  utf8_ok (length ts) (ts ++ rest) = utf8_ok 0 rest.
Proof.
  induction 1 as [|b ts Hb _ IH]; [reflexivity |]. simpl. now rewrite Hb.
Qed.

Lemma utf8_ok_split (s : bytes) :
  forall pending,
    utf8_ok pending s = true ->
    exists ts cs,
      s = ts ++ concat cs /\ length ts = pending /\
      Forall (fun b => is_trail b = true) ts /\
      forallb utf8_char cs = true.
Proof.
  induction s as [|b r IH]; intros pending H; simpl in H.
  - apply Nat.eqb_eq in H. subst. now exists [], [].
  - destruct pending as [|k]; apply andb_true_iff in H; destruct H as [Hb H];
      destruct (IH _ H) as (ts & cs & -> & Hlen & Hts & Hcs).
    + exists [], ((b :: ts) :: cs). repeat split; trivial.
      cbn [forallb]. rewrite Hcs, andb_true_r. unfold utf8_char.
      rewrite Hb. cbn [andb]. apply andb_true_iff. split.
      * apply Nat.eqb_eq. pose proof (lead_width_pos b).
        cbn [length]. lia.
      * apply forallb_forall. now apply Forall_forall.
    + exists (b :: ts), cs. repeat split; simpl; trivial; [lia |].
      now constructor.
Qed.

(** A byte string passes [is_utf8] exactly when it is the concatenation of
    encoded code points. *)
Lemma is_utf8_chars (s : bytes) :
  is_utf8 s = true <->
  exists cs, s = concat cs /\ forallb utf8_char cs = true.
Proof.
  unfold is_utf8. split.
  - intros H. destruct (utf8_ok_split s 0 H) as (ts & cs & -> & Hlen & _ & Hcs).
    destruct ts; [| discriminate]. now exists cs.
  - intros (cs & -> & Hcs).
    induction cs as [|c cs IH]; [reflexivity |].
    simpl in Hcs. apply andb_true_iff in Hcs. destruct Hcs as [Hc Hcs].
    destruct (utf8_char_inv c Hc) as (l & ts & -> & Hl & Hw & Hts).
    simpl. rewrite Hl. simpl in Hw. simpl.
    replace (lead_width l - 1) with (length ts) by lia.
    rewrite utf8_ok_trails by trivial. now apply IH.
Qed.

(** A byte occurrence, read in code points. *)
Lemma reported_codepoints (gl : bool) (cs ps : list bytes) (k : nat) :
  forallb utf8_char cs = true -> forallb utf8_char ps = true -> ps <> [] ->
  occurs_at (concat ps) (concat cs) k ->
  codepoint_match gl cs ps (reported gl (concat cs) (concat ps) k).
Proof.
  intros Hcs Hps Hne Hocc.
  destruct (occurrence_on_boundaries ps Hps Hne cs k Hcs Hocc)
    as (pre & post & E & Hk).
  exists pre, post. split; [exact E |].
  rewrite reported_count by trivial. cbv zeta.
  assert (Hpre : forallb utf8_char pre = true).
  { rewrite E, forallb_app in Hcs. now apply andb_true_iff in Hcs. }
  assert (Hfirst : firstn k (concat cs) = concat pre).
  { rewrite E, concat_app, Hk, firstn_app, Nat.sub_diag, firstn_all.
    simpl. apply app_nil_r. }
  rewrite Hfirst, !count_leads_concat by trivial.
  unfold codepoint_record. now destruct gl.
Qed.

(** ** Code point coordinates of the results *)

(** C2. For a subject and a non-empty pattern given by their code points,
    each encoded in UTF-8, a record of first, of last or of all is the
    sentinel for "no match" or locates an occurrence of the code points of
    the pattern among those of the subject: its start is the 1-based index
    of the first matched code point and its end that of the last one (its
    length their number, in length mode), whatever the byte widths of the
    code points before.  For the subject U+00E9 "bc" and the pattern "bc"
    the three functions report the start 2, not the byte offset 3. *)
Theorem matches_reported_in_codepoints :
  (forall (cs ps : list bytes) (opts : opts_fixed) (omit gl : bool),
     forallb utf8_char cs = true ->
     forallb utf8_char ps = true ->
     ps <> [] ->
     (exists r,
        stri_locate_first_fixed [Some (concat cs)] [Some (concat ps)] opts gl
          = Returns [r]
        /\ (r = not_found gl \/ codepoint_match gl cs ps r))
     /\
     (exists r,
        stri_locate_last_fixed [Some (concat cs)] [Some (concat ps)] opts gl
          = Returns [r]
        /\ (r = not_found gl \/ codepoint_match gl cs ps r))
     /\
     (exists m,
        stri_locate_all_fixed [Some (concat cs)] [Some (concat ps)]
          omit opts gl = Returns [m]
        /\ (m = no_match_rows omit gl
            \/ (m <> [] /\ Forall (codepoint_match gl cs ps) m))))
  /\ stri_locate_first_fixed [Some e_acute_bc] [Some bc] no_overlap false
     = Returns [(2, 3)%Z]
  /\ stri_locate_last_fixed [Some e_acute_bc] [Some bc] no_overlap false
     = Returns [(2, 3)%Z]
  /\ stri_locate_all_fixed [Some e_acute_bc] [Some bc] false no_overlap false
     = Returns [[(2, 3)%Z]].
Proof.
  split; [| repeat split].
  intros cs ps opts omit gl Hcs Hps Hne.
  destruct (concat_chars_nonempty ps Hps Hne) as (l & r0 & Hp & _).
  assert (Hpne : concat ps <> []) by (rewrite Hp; discriminate).
  assert (Hlen : (length (concat ps) =? 0) = false)
    by (rewrite Hp; reflexivity).
  assert (Hfl : forall first,
    firstlast_record first gl (Some (concat cs)) (Some (concat ps))
      = not_found gl
    \/ codepoint_match gl cs ps
         (firstlast_record first gl (Some (concat cs)) (Some (concat ps)))).
  { intros first. unfold firstlast_record. rewrite Hlen.
    destruct (if first then scan_forward (concat ps) (concat cs) 0
              else scan_backward (concat ps) (concat cs) 0) as [k|] eqn:Ek;
      [right | now left].
    apply reported_codepoints; trivial.
    now apply (firstlast_found_occurs first). }
  unfold stri_locate_first_fixed, stri_locate_last_fixed.
  rewrite !firstlast_single, all_single.
  split; [| split].
  - eexists. split; [reflexivity | apply Hfl].
  - eexists. split; [reflexivity | apply Hfl].
  - eexists. split; [reflexivity |].
    pose proof (locate_all_single_cases (Some (concat cs)) (Some (concat ps))
                  (getByteSearchFlags opts true)) as H.
    cbv beta iota zeta in H. rewrite Hlen in H.
    destruct H as [[_ H] | (k & rest & Hsw & H)]; rewrite H; [now left |].
    right. split; [discriminate |].
    apply Forall_map_all. intros j Hj.
    apply reported_codepoints; trivial.
    apply sweep_occurs in Hsw. rewrite Forall_forall in Hsw. now apply Hsw.
Qed.

Lemma matches_reported_in_codepoints_witness :
  exists r,
    stri_locate_first_fixed [Some e_acute_bc] [Some bc] with_overlap true
      = Returns [r]
    /\ (r = not_found true
        \/ codepoint_match true [[xc3; xa9]; [x62]; [x63]] [[x62]; [x63]] r).
Proof.
  apply (proj1 matches_reported_in_codepoints
           [[xc3; xa9]; [x62]; [x63]] [[x62]; [x63]] with_overlap false true);
    [reflexivity | reflexivity | discriminate].
Defined.

(** * Further properties of the code *)

(** ** The list containers: debug and release builds *)

Section ContainerBuilds.

Variable slot : Type.
Variable elem : Type.
Variable slot_isNA : slot -> bool.
Variable slot_deref : slot -> outcome elem.
Variable class_name : string.

Local Open Scope Z_scope.

(** A value returned under the guards is returned without them. *)
Lemma isNA_debug_release (c : Container.container slot) (i : Z) (b : bool) :
  Container.isNA slot_isNA class_name false c i = Returns b ->
  Container.isNA slot_isNA class_name true c i = Returns b.
Proof.
  unfold Container.isNA.
  destruct (negb false && ((i <? 0) || (Container.nrecycle c <=? i)));
    [discriminate | trivial].
Qed.

Lemma get_debug_release (c : Container.container slot) (i : Z) (e : elem) :
  Container.get slot_isNA slot_deref class_name false c i = Returns e ->
  Container.get slot_isNA slot_deref class_name true c i = Returns e.
Proof.
  unfold Container.get.
  destruct (negb false && ((i <? 0) || (Container.nrecycle c <=? i)));
    [discriminate |].
  cbn [negb andb]. destruct (Container.data_at c i) as [s| |]; simpl; trivial.
  destruct (slot_isNA s); [discriminate | trivial].
Qed.

(** Without the guards, any index from 0 on reads the slot [i mod n],
    whatever [nrecycle] is. *)
Lemma data_at_nonneg (c : Container.container slot) (i : Z) :
  Z.of_nat (length (Container.data c)) = Container.n c ->
  0 < Container.n c -> 0 <= i ->
  exists s,
    nth_error (Container.data c) (Z.to_nat (i mod Container.n c)) = Some s
    /\ Container.data_at c i = Returns s.
Proof.
  intros Hlen Hn H0. unfold Container.data_at.
  destruct (Z.eqb_spec (Container.n c) 0); [lia |].
  rewrite Z.rem_mod_nonneg by lia.
  pose proof (Z.mod_pos_bound i (Container.n c) Hn) as Hb.
  destruct (Z.ltb_spec (i mod Container.n c) 0); [lia |].
  destruct (nth_error (Container.data c) (Z.to_nat (i mod Container.n c)))
    as [s|] eqn:E.
  - now exists s.
  - apply nth_error_None in E. lia.
Qed.

(** A negative index that is no multiple of [n] reads before the array. *)
Lemma data_at_negative (c : Container.container slot) (i : Z) :
  0 < Container.n c -> i < 0 -> Z.rem i (Container.n c) <> 0 ->
  Container.data_at c i = Undefined.
Proof.
  intros Hn Hi Hr. unfold Container.data_at.
  destruct (Z.eqb_spec (Container.n c) 0); [lia |].
  assert (Hb : Z.rem i (Container.n c) <= 0) by (apply Z.rem_nonpos; lia).
  destruct (Z.ltb_spec (Z.rem i (Container.n c)) 0); [reflexivity | lia].
Qed.

(** Indices that differ by a multiple of [n] read the same slot. *)
Lemma data_at_periodic (c : Container.container slot) (i k : Z) :
  0 < Container.n c -> 0 <= i -> 0 <= k ->
  Container.data_at c (i + k * Container.n c) = Container.data_at c i.
Proof.
  intros Hn Hi Hk. unfold Container.data_at.
  destruct (Z.eqb_spec (Container.n c) 0); [lia |].
  assert (0 <= k * Container.n c) by nia.
  rewrite !Z.rem_mod_nonneg by lia.
  now rewrite Z_mod_plus_full.
Qed.

Lemma access_periodic (c : Container.container slot) (i k : Z)
    (ndebug : bool) :
  Container.wf c -> 0 <= i -> 0 <= k ->
  i + k * Container.n c < Container.nrecycle c ->
  Container.isNA slot_isNA class_name ndebug c (i + k * Container.n c)
  = Container.isNA slot_isNA class_name ndebug c i
  /\ Container.get slot_isNA slot_deref class_name ndebug c
       (i + k * Container.n c)
     = Container.get slot_isNA slot_deref class_name ndebug c i.
Proof.
  intros [Hlen Hpos] Hi Hk Hlt.
  assert (Hnn : 0 <= Container.n c) by lia.
  assert (Hkn : 0 <= k * Container.n c) by nia.
  assert (Hn : 0 < Container.n c) by (apply Hpos; lia).
  unfold Container.isNA, Container.get.
  rewrite data_at_periodic by trivial.
  destruct (Z.ltb_spec (i + k * Container.n c) 0); [lia |].
  destruct (Z.ltb_spec i 0); [lia |].
  destruct (Z.leb_spec (Container.nrecycle c) (i + k * Container.n c));
    [lia |].
  destruct (Z.leb_spec (Container.nrecycle c) i); [lia |].
  now rewrite !andb_false_r.
Qed.

End ContainerBuilds.

(** X1. The guards of a debug build only ever stop a call: whenever
    [isNA] or [get] of either container returns a value in a debug build,
    the release build returns the same value. *)
Theorem debug_results_are_release_results
    (IntVec : Type) (IntVec_isNA : IntVec -> bool)
    (cu : StriContainerListUTF8.container)
    (ci : StriContainerListInt.container IntVec) (i : Z) :
  (forall b, StriContainerListUTF8.isNA false cu i = Returns b ->
             StriContainerListUTF8.isNA true cu i = Returns b)
  /\ (forall e, StriContainerListUTF8.get false cu i = Returns e ->
                StriContainerListUTF8.get true cu i = Returns e)
  /\ (forall b, StriContainerListInt.isNA IntVec IntVec_isNA false ci i
                = Returns b ->
                StriContainerListInt.isNA IntVec IntVec_isNA true ci i
                = Returns b)
  /\ (forall e, StriContainerListInt.get IntVec IntVec_isNA false ci i
                = Returns e ->
                StriContainerListInt.get IntVec IntVec_isNA true ci i
                = Returns e).
Proof.
  repeat split; intros x Hx.
  - now apply isNA_debug_release.
  - now apply get_debug_release.
  - now apply isNA_debug_release.
  - now apply get_debug_release.
Qed.

Lemma debug_results_are_release_results_witness :
  StriContainerListInt.get (list Z) empty_is_NA true two_of_four_int 2
  = Returns [1; 2]%Z.
Proof.
  apply (debug_results_are_release_results (list Z) empty_is_NA
           two_of_four_utf8 two_of_four_int 2).
  reflexivity.
Defined.

(** X2. Recycling: on a well-formed container, two indices below
    [nrecycle] that differ by a multiple of [n] are answered alike by
    [isNA] and by [get], in a debug and in a release build. *)
Theorem recycled_indices_read_the_same_element
    (IntVec : Type) (IntVec_isNA : IntVec -> bool)
    (cu : StriContainerListUTF8.container)
    (ci : StriContainerListInt.container IntVec)
    (i k : Z) (ndebug : bool) :
  (0 <= i)%Z -> (0 <= k)%Z ->
  (Container.wf cu ->
   (i + k * Container.n cu < Container.nrecycle cu)%Z ->
   StriContainerListUTF8.isNA ndebug cu (i + k * Container.n cu)
   = StriContainerListUTF8.isNA ndebug cu i
   /\ StriContainerListUTF8.get ndebug cu (i + k * Container.n cu)
      = StriContainerListUTF8.get ndebug cu i)
  /\
  (Container.wf ci ->
   (i + k * Container.n ci < Container.nrecycle ci)%Z ->
   StriContainerListInt.isNA IntVec IntVec_isNA ndebug ci
     (i + k * Container.n ci)
   = StriContainerListInt.isNA IntVec IntVec_isNA ndebug ci i
   /\ StriContainerListInt.get IntVec IntVec_isNA ndebug ci
        (i + k * Container.n ci)
      = StriContainerListInt.get IntVec IntVec_isNA ndebug ci i).
Proof.
  intros Hi Hk. split; intros Hw Hlt; now apply access_periodic.
Qed.

Lemma recycled_indices_read_the_same_element_witness :
  StriContainerListUTF8.isNA false two_of_four_utf8 (1 + 1 * 2)
  = StriContainerListUTF8.isNA false two_of_four_utf8 1
  /\ StriContainerListUTF8.get false two_of_four_utf8 (1 + 1 * 2)
     = StriContainerListUTF8.get false two_of_four_utf8 1.
Proof.
  apply (recycled_indices_read_the_same_element (list Z) empty_is_NA
           two_of_four_utf8 two_of_four_int 1 1 false); try lia.
  - split; [reflexivity | simpl; lia].
  - simpl; lia.
Defined.

(** X3. A release build does not enforce [nrecycle]: with [n > 0] stored
    elements every index from 0 on, also one at or beyond [nrecycle], makes
    [isNA] and [get] read the element [i mod n], where the debug build
    throws beyond [nrecycle]; a negative index that is no multiple of [n]
    is a read before the array. *)
Theorem release_build_ignores_nrecycle
    (IntVec : Type) (IntVec_isNA : IntVec -> bool)
    (cu : StriContainerListUTF8.container)
    (ci : StriContainerListInt.container IntVec) (i : Z) :
  Z.of_nat (length (Container.data cu)) = Container.n cu ->
  Z.of_nat (length (Container.data ci)) = Container.n ci ->
  (0 < Container.n cu)%Z -> (0 < Container.n ci)%Z ->
  ((0 <= i)%Z ->
   (exists p,
      nth_error (Container.data cu) (Z.to_nat (i mod Container.n cu)) = Some p
      /\ StriContainerListUTF8.isNA true cu i
         = Returns (match p with None => true | Some _ => false end)
      /\ StriContainerListUTF8.get true cu i
         = match p with Some e => Returns e | None => Undefined end)
   /\
   (exists v,
      nth_error (Container.data ci) (Z.to_nat (i mod Container.n ci)) = Some v
      /\ StriContainerListInt.isNA IntVec IntVec_isNA true ci i
         = Returns (IntVec_isNA v)
      /\ StriContainerListInt.get IntVec IntVec_isNA true ci i = Returns v))
  /\
  ((i < 0)%Z ->
   (Z.rem i (Container.n cu) <> 0%Z ->
    StriContainerListUTF8.isNA true cu i = Undefined
    /\ StriContainerListUTF8.get true cu i = Undefined)
   /\
   (Z.rem i (Container.n ci) <> 0%Z ->
    StriContainerListInt.isNA IntVec IntVec_isNA true ci i = Undefined
    /\ StriContainerListInt.get IntVec IntVec_isNA true ci i = Undefined)).
Proof.
  intros Hlu Hli Hnu Hni. split.
  - intros Hi. split.
    + destruct (data_at_nonneg _ cu i Hlu Hnu Hi) as (p & Hnth & Hat).
      exists p. split; [exact Hnth |].
      unfold StriContainerListUTF8.isNA, StriContainerListUTF8.get,
        Container.isNA, Container.get.
      rewrite Hat. cbn [negb andb bind]. now destruct p.
    + destruct (data_at_nonneg _ ci i Hli Hni Hi) as (v & Hnth & Hat).
      exists v. split; [exact Hnth |].
      unfold StriContainerListInt.isNA, StriContainerListInt.get,
        Container.isNA, Container.get.
      now rewrite Hat.
  - intros Hi. split; intros Hr.
    + unfold StriContainerListUTF8.isNA, StriContainerListUTF8.get,
        Container.isNA, Container.get.
      now rewrite (data_at_negative _ cu i Hnu Hi Hr).
    + unfold StriContainerListInt.isNA, StriContainerListInt.get,
        Container.isNA, Container.get.
      now rewrite (data_at_negative _ ci i Hni Hi Hr).
Qed.

Lemma release_build_ignores_nrecycle_witness :
  (exists v,
     nth_error (Container.data two_of_four_int) (Z.to_nat (6 mod 2)) = Some v
     /\ StriContainerListInt.isNA (list Z) empty_is_NA true two_of_four_int 6
        = Returns (empty_is_NA v)
     /\ StriContainerListInt.get (list Z) empty_is_NA true two_of_four_int 6
        = Returns v)
  /\ StriContainerListInt.isNA (list Z) empty_is_NA false two_of_four_int 6
     = Throws (IndexOutOfBounds
                 "StriContainerListInt::isNA(): INDEX OUT OF BOUNDS").
Proof.
  split; [| reflexivity].
  apply (release_build_ignores_nrecycle (list Z) empty_is_NA
           two_of_four_utf8 two_of_four_int 6);
    solve [reflexivity | simpl; lia | lia].
Defined.

(** ** First, last and all against each other *)

Lemma reported_not_sentinel (gl : bool) (s p : bytes) (k : nat) :
  occurs_at p s k -> is_sentinel (reported gl s p k) = false.
Proof.
  intros Hocc. rewrite reported_count by trivial. cbv zeta.
  unfold is_sentinel, NA_INTEGER.
  set (before := Z.of_nat (count_leads (firstn k s))).
  assert (Hb : (0 <= before)%Z) by (unfold before; lia).
  destruct gl; cbn [fst snd];
    destruct (Z.eqb_spec (before + 1) (-2147483648)); try lia;
    destruct (Z.eqb_spec (before + 1) (-1)); try lia; reflexivity.
Qed.

Lemma sweep_head_is_first (p s : bytes) (resume : nat -> nat)
    (k : nat) (rest : list nat) :
  p <> [] -> sweep p s resume 0 (k :: rest) -> scan_forward p s 0 = Some k.
Proof.
  intros Hp Hsw. inversion Hsw as [| from k' rest' _ Hocc Hmin _]; subst.
  pose proof (find_first_spec p s Hp) as H.
  destruct (scan_forward p s 0) as [k1|]; [| now destruct (H k)].
  destruct H as [Hocc1 Hmin1]. f_equal.
  destruct (Nat.lt_trichotomy k1 k) as [Hlt | [-> | Hgt]]; trivial.
  - destruct (Hmin k1); [lia | trivial].
  - now destruct (Hmin1 k Hgt).
Qed.

(** The first row that all stores, when it keeps the sentinel rows, is the
    record of first. *)
Lemma all_head_is_first_record
    (sc pc : StriContainerUTF8) (flags : ByteSearchFlags) (gl : bool)
    (i : nat) :
  hd_error (locate_all_element sc pc flags false gl i)
  = Some (firstlast_record true gl (str_get sc i) (str_get pc i)).
Proof.
  pose proof (locate_all_element_cases sc pc flags i) as H.
  unfold firstlast_record.
  destruct (str_get sc i) as [s|]; [| now rewrite H].
  destruct (str_get pc i) as [p|]; [| now rewrite H].
  destruct (length p =? 0) eqn:E; [now rewrite H |].
  apply length_zero_nil in E.
  destruct H as [[Hno H] | (k & rest & Hsw & H)]; rewrite H.
  - pose proof (find_first_spec p s E) as Hs.
    destruct (scan_forward p s 0) as [k|]; [| reflexivity].
    now destruct (Hno k).
  - now rewrite (sweep_head_is_first p s _ k rest E Hsw).
Qed.

(** X4. With [omit_no_match] unset, the first row of every element of
    [stri_locate_all_fixed] is the record that [stri_locate_first_fixed]
    holds at the same index, sentinels included. *)
Theorem first_is_the_first_row_of_all
    (str pattern : list (option bytes)) (opts : opts_fixed) (gl : bool)
    (rf : matrix) (ra : list matrix) :
  stri_locate_first_fixed str pattern opts gl = Returns rf ->
  stri_locate_all_fixed str pattern false opts gl = Returns ra ->
  Forall2 (fun r m => hd_error m = Some r) rf ra.
Proof.
  intros Hf Ha.
  destruct (firstlast_returns _ _ _ _ _ _ Hf) as (L & HL & ->).
  destruct (all_returns _ _ _ _ _ _ Ha) as (L' & HL' & ->).
  rewrite HL in HL'; injection HL' as <-.
  apply Forall2_map_same. intros i _.
  now rewrite all_head_is_first_record, !str_get_vec.
Qed.

Lemma first_is_the_first_row_of_all_witness :
  Forall2 (fun r m => hd_error m = Some r)
    [(2, 3); (NA_INTEGER, NA_INTEGER)]%Z
    [[(2, 3); (5, 6)]; [(NA_INTEGER, NA_INTEGER)]]%Z.
Proof.
  apply (first_is_the_first_row_of_all [Some abcabc; Some xyz] [Some bc]
           no_overlap false); reflexivity.
Defined.




Lemma count_leads_firstn_le (s : bytes) (k k' : nat) :
  k <= k' -> count_leads (firstn k s) <= count_leads (firstn k' s).
Proof.
  intros Hle. replace k' with (k + (k' - k)) by lia.
  rewrite firstn_plus, count_leads_app. lia.
Qed.

Lemma firstlast_both_or_neither (p s : bytes) :
  p <> [] ->
  match scan_forward p s 0, scan_backward p s 0 with
  | Some k1, Some k2 => occurs_at p s k1 /\ occurs_at p s k2 /\ k1 <= k2
  | None, None => True
  | _, _ => False
  end.
Proof.
  intros Hp.
  pose proof (find_first_spec p s Hp) as H1.
  pose proof (find_last_spec p s Hp) as H2.
  destruct (scan_forward p s 0) as [k1|], (scan_backward p s 0) as [k2|];
    trivial.
  - destruct H1 as [Ho1 Hmin], H2 as [Ho2 _]. repeat split; trivial.
    destruct (Nat.le_gt_cases k1 k2) as [Hle | Hgt]; trivial.
    now destruct (Hmin k2 Hgt).
  - now destruct (H2 k1).
  - now destruct (H1 k2).
Qed.

(** X6. At every index first and last are sentinels together or matches
    together, and then the match of first does not start after the match
    of last. *)
Theorem first_never_after_last
    (str pattern : list (option bytes)) (opts : opts_fixed) (gl : bool)
    (rf rl : matrix) :
  stri_locate_first_fixed str pattern opts gl = Returns rf ->
  stri_locate_last_fixed str pattern opts gl = Returns rl ->
  Forall2 (fun f l =>
             is_sentinel f = is_sentinel l /\
             (is_sentinel f = false -> (fst f <= fst l)%Z))
          rf rl.
Proof.
  intros Hf Hl.
  destruct (firstlast_returns _ _ _ _ _ _ Hf) as (L & HL & ->).
  destruct (firstlast_returns _ _ _ _ _ _ Hl) as (L' & HL' & ->).
  rewrite HL in HL'; injection HL' as <-.
  apply Forall2_map_same. intros i _. unfold firstlast_record.
  destruct (nth (i mod length str) str None) as [s|]; [| now split].
  destruct (nth (i mod length pattern) pattern None) as [p|]; [| now split].
  destruct (length p =? 0) eqn:E; [now split |].
  apply length_zero_nil in E.
  pose proof (firstlast_both_or_neither p s E) as H.
  destruct (scan_forward p s 0) as [k1|], (scan_backward p s 0) as [k2|];
    try easy.
  destruct H as (Ho1 & Ho2 & Hle).
  rewrite !reported_not_sentinel by trivial. split; [reflexivity |].
  intros _. rewrite !reported_count by trivial. cbv zeta.
  pose proof (count_leads_firstn_le s k1 k2 Hle).
  destruct gl; cbn [fst]; lia.
Qed.

Lemma first_never_after_last_witness :
  Forall2 (fun f l =>
             is_sentinel f = is_sentinel l /\
             (is_sentinel f = false -> (fst f <= fst l)%Z))
          [(2, 3); (NA_INTEGER, NA_INTEGER)]%Z
          [(5, 6); (NA_INTEGER, NA_INTEGER)]%Z.
Proof.
  apply (first_never_after_last [Some abcabc; Some xyz] [Some bc]
           no_overlap false); reflexivity.
Defined.

(** ** The rows of one element of all *)

Lemma sweep_increasing (p s : bytes) (resume : nat -> nat) (from : nat)
    (ks : list nat) :
  (forall k, k < resume k) ->
  sweep p s resume from ks -> ForallOrdPairs lt ks.
Proof.
  intros Hadv. induction 1 as [| from k rest Hle _ _ Hrest IH];
    constructor; trivial.
  apply sweep_from in Hrest; [| intros x; pose proof (Hadv x); lia].
  apply Forall_impl with (2 := Hrest). intros x Hx. pose proof (Hadv k). lia.
Qed.

Lemma resume_after_advances (ov : bool) (p : bytes) (k : nat) :
  p <> [] -> k < resume_after ov p k.
Proof.
  intros Hp. unfold resume_after.
  destruct p; [easy |]. destruct ov; simpl; lia.
Qed.

Lemma ForallOrdPairs_map_in {A B : Type} (R : A -> A -> Prop)
    (R' : B -> B -> Prop) (f : A -> B) (l : list A) :
  (forall x y, In x l -> In y l -> R x y -> R' (f x) (f y)) ->
  ForallOrdPairs R l -> ForallOrdPairs R' (map f l).
Proof.
  intros Hf H. induction H as [| x l Hx _ IH]; simpl; constructor.
  - apply Forall_forall. intros y Hy. apply in_map_iff in Hy.
    destruct Hy as (z & <- & Hz). rewrite Forall_forall in Hx.
    apply Hf; [now left | now right | now apply Hx].
  - apply IH. intros u v Hu Hv. apply Hf; now right.
Qed.

Lemma count_leads_firstn_lt (s p : bytes) (k k' : nat) :
  is_utf8 p = true -> p <> [] -> occurs_at p s k -> k < k' ->
  count_leads (firstn k s) < count_leads (firstn k' s).
Proof.
  intros Hu Hp Hocc Hlt. replace k' with (k + S (k' - S k)) by lia.
  rewrite firstn_plus, count_leads_app, (occurs_at_app p s k Hocc).
  destruct p as [|b r]; [easy |].
  unfold is_utf8 in Hu; simpl in Hu. apply andb_true_iff in Hu.
  destruct Hu as [Hb _]. simpl. rewrite count_leads_cons.
  destruct (is_trail b); [discriminate | lia].
Qed.

Lemma sentinel_rows_ordered (R : Z * Z -> Z * Z -> Prop) (omit gl : bool) :
  ForallOrdPairs R (no_match_rows omit gl)
  /\ ForallOrdPairs R [NA_record].
Proof.
  unfold no_match_rows. destruct omit; repeat constructor.
Qed.

Lemma locate_all_element_sorted
    (sc pc : StriContainerUTF8) (flags : ByteSearchFlags) (omit gl : bool)
    (i : nat) :
  is_utf8_or_NA (str_get pc i) = true ->
  ForallOrdPairs (fun r r' => (fst r < fst r')%Z)
    (locate_all_element sc pc flags omit gl i).
Proof.
  intros Hu. pose proof (locate_all_element_cases sc pc flags i) as H.
  destruct (str_get sc i) as [s|];
    [| rewrite H; apply (sentinel_rows_ordered _ omit gl)].
  destruct (str_get pc i) as [p|];
    [| rewrite H; apply (sentinel_rows_ordered _ omit gl)].
  destruct (length p =? 0) eqn:E;
    [rewrite H; apply (sentinel_rows_ordered _ omit gl) |].
  apply length_zero_nil in E.
  destruct H as [[_ H] | (k & rest & Hsw & H)]; rewrite H;
    [apply (sentinel_rows_ordered _ omit gl) |].
  pose proof (sweep_occurs _ _ _ _ _ Hsw) as Hocc.
  rewrite Forall_forall in Hocc.
  apply sweep_increasing in Hsw;
    [| intros x; now apply resume_after_advances].
  apply ForallOrdPairs_map_in with (2 := Hsw). intros x y Hx Hy Hlt.
  rewrite !reported_count by now apply Hocc. cbv zeta.
  pose proof (count_leads_firstn_lt s p x y Hu E (Hocc x Hx) Hlt).
  destruct gl; cbn [fst]; lia.
Qed.

Lemma locate_all_element_separated
    (sc pc : StriContainerUTF8) (flags : ByteSearchFlags) (omit : bool)
    (i : nat) :
  BYTESEARCH_OVERLAP flags = false ->
  ForallOrdPairs (fun r r' => (snd r < fst r')%Z)
    (locate_all_element sc pc flags omit false i).
Proof.
  intros Hov. pose proof (locate_all_element_cases sc pc flags i) as H.
  destruct (str_get sc i) as [s|];
    [| rewrite H; apply (sentinel_rows_ordered _ omit false)].
  destruct (str_get pc i) as [p|];
    [| rewrite H; apply (sentinel_rows_ordered _ omit false)].
  destruct (length p =? 0) eqn:E;
    [rewrite H; apply (sentinel_rows_ordered _ omit false) |].
  destruct H as [[_ H] | (k & rest & Hsw & H)]; rewrite H;
    [apply (sentinel_rows_ordered _ omit false) |].
  pose proof (sweep_occurs _ _ _ _ _ Hsw) as Hocc.
  rewrite Forall_forall in Hocc.
  rewrite Hov in Hsw. apply sweep_disjoint in Hsw.
  apply ForallOrdPairs_map_in with (2 := Hsw). intros x y Hx Hy Hle.
  rewrite !reported_count by now apply Hocc. cbv zeta. cbn [fst snd].
  pose proof (count_leads_firstn_le s (x + length p) y Hle) as Hm.
  rewrite firstn_plus, count_leads_app in Hm.
  pose proof (Hocc x Hx) as Hox. unfold occurs_at in Hox.
  rewrite Hox in Hm. lia.
Qed.

(** X7. The rows of every element of [stri_locate_all_fixed] are in
    strictly increasing order of their start (patterns being valid UTF-8 or
    [NA]); without overlap, in position mode, every row ends before the
    next one starts, also when counted in code points. *)
Theorem all_rows_are_sorted
    (str pattern : list (option bytes)) (omit : bool) (opts : opts_fixed)
    (gl : bool) (ra : list matrix) :
  Forall (fun p => is_utf8_or_NA p = true) pattern ->
  stri_locate_all_fixed str pattern omit opts gl = Returns ra ->
  Forall (ForallOrdPairs (fun r r' => (fst r < fst r')%Z)) ra
  /\ (overlap_allowed opts = false -> gl = false ->
      Forall (ForallOrdPairs (fun r r' => (snd r < fst r')%Z)) ra).
Proof.
  intros Hu Ha.
  destruct (all_returns _ _ _ _ _ _ Ha) as (L & HL & ->). split.
  - apply Forall_map_all. intros i _. apply locate_all_element_sorted.
    rewrite str_get_vec. now apply nth_utf8_or_NA.
  - intros Hov ->. apply Forall_map_all. intros i _.
    apply locate_all_element_separated. simpl. exact Hov.
Qed.

Lemma all_rows_are_sorted_witness :
  Forall (ForallOrdPairs (fun r r' => (fst r < fst r')%Z))
    [[(1, 2); (2, 3); (3, 4)]]%Z
  /\ (true = false -> false = false ->
      Forall (ForallOrdPairs (fun r r' => (snd r < fst r')%Z))
        [[(1, 2); (2, 3); (3, 4)]]%Z).
Proof.
  apply (all_rows_are_sorted [Some aaaa] [Some aa] false with_overlap false);
    [repeat constructor | reflexivity].
Defined.

(** ** Overlap *)

Lemma sweep_restart (p s : bytes) (resume : nat -> nat) (from from' : nat)
    (ks : list nat) :
  from <= from' ->
  (forall j, from <= j < from' -> ~ occurs_at p s j) ->
  sweep p s resume from ks -> sweep p s resume from' ks.
Proof.
  intros Hle Hgap Hsw.
  inversion Hsw as [f Hnone | f k rest Hfk Hocc Hmin Hrest]; subst.
  - apply sweep_done. intros j Hj. apply Hnone. lia.
  - assert (from' <= k).
    { destruct (Nat.le_gt_cases from' k) as [H | H]; trivial.
      destruct (Hgap k); [lia | trivial]. }
    apply sweep_match; trivial. intros j Hj. apply Hmin. lia.
Qed.

Lemma sweep_without_overlap (p s : bytes) (from : nat) (ks : list nat) :
  p <> [] ->
  (forall j k, occurs_at p s j -> occurs_at p s k -> j < k ->
               j + length p <= k) ->
  sweep p s (resume_after true p) from ks ->
  sweep p s (resume_after false p) from ks.
Proof.
  intros Hp Hapart.
  induction 1 as [from Hnone | from k rest Hle Hocc Hmin _ IH].
  - now apply sweep_done.
  - apply sweep_match; trivial.
    apply sweep_restart with (from := resume_after true p k); trivial.
    + unfold resume_after. destruct p; [easy | simpl; lia].
    + unfold resume_after. intros j Hj Hoj.
      pose proof (Hapart k j Hocc Hoj). lia.
Qed.

(** X8. Requesting overlap changes the result of [stri_locate_all_fixed]
    only where occurrences overlap: for a subject in which any two
    occurrences of the pattern lie at least the length of the pattern
    apart, the result is the same for all options. *)
Theorem overlap_matters_only_for_overlapping_occurrences
    (s p : bytes) (omit gl : bool) (opts opts' : opts_fixed) :
  (forall j k, occurs_at p s j -> occurs_at p s k -> j < k ->
               j + length p <= k) ->
  stri_locate_all_fixed [Some s] [Some p] omit opts gl
  = stri_locate_all_fixed [Some s] [Some p] omit opts' gl.
Proof.
  intros Hapart. rewrite !all_single. do 2 f_equal.
  assert (Hflag : forall ov,
    locate_all_element (vec [Some s] 1) (vec [Some p] 1)
      {| BYTESEARCH_OVERLAP := ov |} omit gl 0
    = locate_all_element (vec [Some s] 1) (vec [Some p] 1)
        {| BYTESEARCH_OVERLAP := false |} omit gl 0).
  { intros ov.
    pose proof (locate_all_single_cases (Some s) (Some p)
                  {| BYTESEARCH_OVERLAP := ov |}) as H1.
    pose proof (locate_all_single_cases (Some s) (Some p)
                  {| BYTESEARCH_OVERLAP := false |}) as H2.
    cbv beta iota zeta in H1, H2. cbn [BYTESEARCH_OVERLAP] in H1, H2.
    destruct (length p =? 0) eqn:E; [now rewrite H1, H2 |].
    apply length_zero_nil in E.
    destruct H1 as [[Hno H1] | (k & rest & Hsw & H1)];
      destruct H2 as [[Hno' H2] | (k' & rest' & Hsw' & H2)];
      rewrite H1, H2; trivial.
    - inversion Hsw'; subst. now destruct (Hno k').
    - inversion Hsw; subst. now destruct (Hno' k).
    - f_equal. destruct ov.
      + apply sweep_without_overlap in Hsw; trivial.
        exact (sweep_unique _ _ _ _ _ _ Hsw Hsw').
      + exact (sweep_unique _ _ _ _ _ _ Hsw Hsw'). }
  unfold getByteSearchFlags. cbn [andb].
  now rewrite (Hflag (overlap_allowed opts)),
    (Hflag (overlap_allowed opts')).
Qed.

Lemma overlap_matters_only_for_overlapping_occurrences_witness :
  stri_locate_all_fixed [Some abcabc] [Some bc] false with_overlap false
  = stri_locate_all_fixed [Some abcabc] [Some bc] false no_overlap false.
Proof.
  apply (overlap_matters_only_for_overlapping_occurrences abcabc bc
           false false with_overlap no_overlap).
  intros j k Hj Hk Hlt.
  assert (Hbc : bc <> []) by discriminate.
  pose proof (occurs_at_bound bc abcabc j Hbc Hj) as Bj.
  pose proof (occurs_at_bound bc abcabc k Hbc Hk) as Bk.
  simpl in Bj, Bk. unfold occurs_at in Hj, Hk.
  destruct j as [|[|[|[|[|j]]]]]; try lia; try discriminate Hj;
    destruct k as [|[|[|[|[|k]]]]]; try lia; try discriminate Hk;
    simpl; lia.
Defined.

(** ** Lengths and row counts *)

Lemma reported_length (s p : bytes) (k : nat) :
  occurs_at p s k ->
  snd (reported true s p k) = Z.of_nat (count_leads p).
Proof. intros Hocc. now rewrite reported_count. Qed.

Lemma firstlast_record_length (first : bool) (x : option bytes) (p : bytes) :
  is_sentinel (firstlast_record first true x (Some p)) = false ->
  snd (firstlast_record first true x (Some p)) = Z.of_nat (count_leads p).
Proof.
  unfold firstlast_record. destruct x as [s|]; [| discriminate].
  destruct (length p =? 0) eqn:E; [discriminate |].
  apply length_zero_nil in E.
  destruct (if first then scan_forward p s 0 else scan_backward p s 0)
    as [k|] eqn:Ek; [| discriminate].
  intros _. apply reported_length. now apply (firstlast_found_occurs first).
Qed.

Lemma locate_all_element_length
    (sc pc : StriContainerUTF8) (flags : ByteSearchFlags) (omit : bool)
    (i : nat) (p : bytes) (r : Z * Z) :
  str_get pc i = Some p ->
  In r (locate_all_element sc pc flags omit true i) ->
  is_sentinel r = false ->
  snd r = Z.of_nat (count_leads p).
Proof.
  intros Hp Hin Hr.
  pose proof (locate_all_element_cases sc pc flags i) as H.
  rewrite Hp in H.
  assert (Hsent : In r (no_match_rows omit true) \/ In r [NA_record] ->
                  snd r = Z.of_nat (count_leads p)).
  { intros Hs. assert (is_sentinel r = true); [| congruence].
    unfold no_match_rows in Hs. destruct omit; simpl in Hs;
      intuition (subst; reflexivity). }
  destruct (str_get sc i) as [s|];
    [| rewrite H in Hin; apply Hsent; now right].
  destruct (length p =? 0) eqn:E;
    [rewrite H in Hin; apply Hsent; now left |].
  destruct H as [[_ H] | (k & rest & Hsw & H)]; rewrite H in Hin;
    [apply Hsent; now left |].
  apply in_map_iff in Hin. destruct Hin as (j & <- & Hj).
  apply reported_length.
  apply sweep_occurs in Hsw. rewrite Forall_forall in Hsw. now apply Hsw.
Qed.

(** X9. In length mode the length column does not depend on the subject:
    at an index whose pattern consists of the encoded code points [ps],
    every record of first, of last and of all that is no sentinel reports
    the length [length ps]. *)
Theorem length_column_is_the_pattern_length
    (str pattern : list (option bytes)) (opts : opts_fixed) (omit : bool)
    (rf rl : matrix) (ra : list matrix) (i : nat) (ps : list bytes) :
  stri_locate_first_fixed str pattern opts true = Returns rf ->
  stri_locate_last_fixed str pattern opts true = Returns rl ->
  stri_locate_all_fixed str pattern omit opts true = Returns ra ->
  i < length rf ->
  nth (i mod length pattern) pattern None = Some (concat ps) ->
  forallb utf8_char ps = true ->
  (forall r, nth_error rf i = Some r -> is_sentinel r = false ->
             snd r = Z.of_nat (length ps))
  /\ (forall r, nth_error rl i = Some r -> is_sentinel r = false ->
                snd r = Z.of_nat (length ps))
  /\ (forall m r, nth_error ra i = Some m -> In r m ->
                  is_sentinel r = false -> snd r = Z.of_nat (length ps)).
Proof.
  intros Hf Hl Ha Hi Hp Hps.
  destruct (firstlast_returns _ _ _ _ _ _ Hf) as (L & HL & Ef).
  destruct (firstlast_returns _ _ _ _ _ _ Hl) as (L1 & HL1 & El).
  destruct (all_returns _ _ _ _ _ _ Ha) as (L2 & HL2 & Ea).
  rewrite HL in HL1, HL2. injection HL1 as <-. injection HL2 as <-.
  assert (HiL : i < L) by (rewrite Ef, length_map, length_seq in Hi; lia).
  rewrite <- (count_leads_concat ps Hps).
  rewrite Ef, El, Ea, !nth_error_map_seq by trivial. rewrite Hp.
  repeat split.
  - intros r [= <-]. apply firstlast_record_length.
  - intros r [= <-]. apply firstlast_record_length.
  - intros m r [= <-]. apply locate_all_element_length.
    now rewrite str_get_vec.
Qed.

Lemma length_column_is_the_pattern_length_witness :
  (forall r, nth_error [(2, 2)]%Z 0 = Some r -> is_sentinel r = false ->
             snd r = Z.of_nat (length [[x62]; [x63]]))
  /\ (forall r, nth_error [(2, 2)]%Z 0 = Some r -> is_sentinel r = false ->
                snd r = Z.of_nat (length [[x62]; [x63]]))
  /\ (forall m r, nth_error [[(2, 2)]]%Z 0 = Some m -> In r m ->
                  is_sentinel r = false ->
                  snd r = Z.of_nat (length [[x62]; [x63]])).
Proof.
  apply (length_column_is_the_pattern_length [Some e_acute_bc] [Some bc]
           no_overlap false _ _ _ 0 [[x62]; [x63]]);
    solve [reflexivity | simpl; lia].
Defined.

Lemma sweep_fits (p s : bytes) (from : nat) (ks : list nat) :
  p <> [] ->
  sweep p s (resume_after false p) from ks ->
  ks <> [] ->
  from + length ks * length p <= length s.
Proof.
  intros Hp. induction 1 as [| from k rest Hle Hocc _ Hrest IH]; [easy |].
  intros _. apply occurs_at_bound in Hocc; trivial.
  destruct rest as [|k' rest'].
  - simpl. lia.
  - unfold resume_after in IH. specialize (IH ltac:(discriminate)).
    simpl in *. lia.
Qed.

(** X10. Without overlap the matches of an element of
    [stri_locate_all_fixed] fit side by side into the subject: an element
    that holds a match has at most [length s / length p] rows, counted in
    bytes of the subject [s] and of the pattern [p]. *)
Theorem rows_without_overlap_fit_the_subject
    (str pattern : list (option bytes)) (omit : bool) (opts : opts_fixed)
    (gl : bool) (ra : list matrix) (i : nat) (s p : bytes) (m : matrix) :
  stri_locate_all_fixed str pattern omit opts gl = Returns ra ->
  overlap_allowed opts = false ->
  nth (i mod length str) str None = Some s ->
  nth (i mod length pattern) pattern None = Some p ->
  nth_error ra i = Some m ->
  (exists r, In r m /\ is_sentinel r = false) ->
  length m * length p <= length s.
Proof.
  intros Ha Hov Hs Hp Hm (r & Hin & Hr).
  destruct (all_returns _ _ _ _ _ _ Ha) as (L & HL & Ea).
  assert (HiL : i < L).
  { assert (Hne : nth_error ra i <> None) by congruence.
    apply nth_error_Some in Hne.
    rewrite Ea, length_map, length_seq in Hne. exact Hne. }
  rewrite Ea, nth_error_map_seq in Hm by trivial. injection Hm as <-.
  pose proof (locate_all_element_cases (vec str L) (vec pattern L)
                (getByteSearchFlags opts true) i) as H.
  rewrite !str_get_vec, Hs, Hp in H.
  assert (Hsent : In r (no_match_rows omit gl) -> False).
  { intros Hn. assert (is_sentinel r = true); [| congruence].
    unfold no_match_rows, not_found in Hn. destruct omit, gl; simpl in Hn;
      intuition (subst; reflexivity). }
  destruct (length p =? 0) eqn:E;
    [rewrite H in Hin; now destruct (Hsent Hin) |].
  apply length_zero_nil in E.
  destruct H as [[_ H] | (k & rest & Hsw & H)].
  - rewrite H in Hin. now destruct (Hsent Hin).
  - rewrite H, length_map.
    cbn [getByteSearchFlags BYTESEARCH_OVERLAP andb] in Hsw.
    rewrite Hov in Hsw.
    apply sweep_fits in Hsw; trivial; discriminate.
Qed.

Lemma rows_without_overlap_fit_the_subject_witness :
  length [(1, 2); (3, 4)]%Z * length aa <= length aaaa.
Proof.
  apply (rows_without_overlap_fit_the_subject [Some aaaa] [Some aa]
           false no_overlap false [[(1, 2); (3, 4)]%Z] 0 aaaa aa);
    try reflexivity.
  exists (1, 2)%Z. split; [now left | reflexivity].
Defined.

(** ** The result matrix in memory *)

Lemma length_upd (tab : cells) (idx : nat) (v : Z) :
  length (upd tab idx v) = length tab.
Proof.
  revert idx; induction tab as [|c t IH]; intros [|idx]; simpl; trivial.
  now rewrite IH.
Qed.

Lemma nth_error_upd_eq (tab : cells) (idx : nat) (v : Z) :
  idx < length tab -> nth_error (upd tab idx v) idx = Some (Some v).
Proof.
  revert idx; induction tab as [|c t IH]; intros [|idx] H; simpl in *;
    try lia; trivial.
  apply IH. lia.
Qed.

Lemma nth_error_upd_neq (tab : cells) (idx j : nat) (v : Z) :
  idx <> j -> nth_error (upd tab idx v) j = nth_error tab j.
Proof.
  revert idx j; induction tab as [|c t IH]; intros [|idx] [|j] H; simpl;
    trivial; try easy.
  apply IH. lia.
Qed.

Lemma upd_upd_same (tab : cells) (idx : nat) (v w : Z) :
  upd (upd tab idx v) idx w = upd tab idx w.
Proof.
  revert idx; induction tab as [|c t IH]; intros [|idx]; simpl; trivial.
  now rewrite IH.
Qed.

Lemma upd_comm (tab : cells) (i j : nat) (v w : Z) :
  i <> j -> upd (upd tab i v) j w = upd (upd tab j w) i v.
Proof.
  revert i j; induction tab as [|c t IH]; intros [|i] [|j] H; simpl;
    trivial; try easy.
  rewrite IH; [reflexivity | lia].
Qed.

Lemma store_in_bounds (tab : cells) (idx : nat) (v : Z) :
  idx < length tab -> store tab idx v = Returns (upd tab idx v).
Proof.
  intros H. unfold store. now apply Nat.ltb_lt in H; rewrite H.
Qed.

Section TwoCells.

(** Two distinct cells [i] and [j] of [tab], holding [a] and [b]. *)
Variable tab : cells.
Variables i j : nat.
Hypothesis Hi : i < length tab.
Hypothesis Hj : j < length tab.
Hypothesis Hij : i <> j.

Lemma store_first (a b a' : Z) :
  store (upd (upd tab i a) j b) i a' = Returns (upd (upd tab i a') j b).
Proof.
  rewrite store_in_bounds by now rewrite !length_upd.
  now rewrite (upd_comm (upd tab i a) j i) by lia;
    rewrite upd_upd_same, upd_comm by lia.
Qed.

Lemma store_second (a b b' : Z) :
  store (upd (upd tab i a) j b) j b' = Returns (upd (upd tab i a) j b').
Proof.
  rewrite store_in_bounds by now rewrite !length_upd.
  now rewrite upd_upd_same.
Qed.

Lemma load_first (a b : Z) : load (upd (upd tab i a) j b) i = Returns a.
Proof.
  unfold load. rewrite nth_error_upd_neq by lia.
  now rewrite nth_error_upd_eq.
Qed.

Lemma load_second (a b : Z) : load (upd (upd tab i a) j b) j = Returns b.
Proof.
  unfold load. now rewrite nth_error_upd_eq by now rewrite length_upd.
Qed.

Lemma store_both (a b : Z) :
  (t <- store tab i a ;; store t j b) = Returns (upd (upd tab i a) j b).
Proof.
  rewrite store_in_bounds by trivial. cbn [bind].
  now rewrite store_in_bounds by now rewrite length_upd.
Qed.

End TwoCells.

(** One round of the loop of [stri__locate_firstlast_fixed] stays inside
    the allocation, reads no cell before it is written, and leaves row [i]
    in the cells [i] and [i + vectorize_length]. *)
Lemma locate_firstlast_step_row
    (sc pc : StriContainerUTF8) (flags : ByteSearchFlags)
    (first gl : bool) (L : nat) (tab : cells) (i : nat) :
  length tab = L + L -> i < L ->
  locate_firstlast_step sc pc flags first gl L tab i
  = Returns (upd (upd tab i (fst (locate_firstlast_row sc pc flags first gl i)))
               (i + L) (snd (locate_firstlast_row sc pc flags first gl i))).
Proof.
  intros Hlen Hi.
  assert (Hi1 : i < length tab) by lia.
  assert (Hi2 : i + L < length tab) by lia.
  assert (Hne : i <> i + L) by lia.
  unfold locate_firstlast_step, locate_firstlast_row.
  rewrite store_in_bounds by trivial. cbn [bind].
  rewrite store_in_bounds by now rewrite length_upd. cbn [bind].
  unfold STRI__CONTINUE_ON_EMPTY_OR_NA_STR_PATTERN.
  destruct (str_get sc i) as [s|]; [| reflexivity].
  destruct (str_get pc i) as [p|]; [| reflexivity].
  destruct (length p =? 0)%nat.
  { destruct gl; [| reflexivity].
    rewrite store_second by trivial. cbn [bind].
    now rewrite store_first by trivial. }
  assert (Hfound : forall (found : option nat) (m : StriByteSearchMatcher),
    (let (start, matcher) := set_match m found in
     if negb (start =? USEARCH_DONE)%Z
     then
       ret_tab <- store (upd (upd tab i NA_INTEGER) (i + L) NA_INTEGER)
                    i start ;;
       ret_tab <- store ret_tab (i + L) (start + getMatchedLength matcher)%Z ;;
       ret_tab <- UTF8_to_UChar32_index_cells s ret_tab i (i + L) 1 1 0 ;;
       (if gl
        then
          from <- load ret_tab i ;;
          to <- load ret_tab (i + L) ;;
          store ret_tab (i + L) (to - (from - 1))%Z
        else Returns ret_tab)
     else
       if gl
       then
         ret_tab <- store (upd (upd tab i NA_INTEGER) (i + L) NA_INTEGER)
                      i (-1) ;;
         store ret_tab (i + L) (-1)
       else Returns (upd (upd tab i NA_INTEGER) (i + L) NA_INTEGER)) =
    Returns
      (upd (upd tab i
         (fst (let (start, matcher) := set_match m found in
               if negb (start =? USEARCH_DONE)%Z
               then
                 let ret := (start, (start + getMatchedLength matcher)%Z) in
                 let ret := hd ret (UTF8_to_UChar32_index s [ret] 1 0) in
                 if gl then (fst ret, (snd ret - (fst ret - 1))%Z) else ret
               else if gl then ((-1)%Z, (-1)%Z)
                    else (NA_INTEGER, NA_INTEGER))))
         (i + L)
         (snd (let (start, matcher) := set_match m found in
               if negb (start =? USEARCH_DONE)%Z
               then
                 let ret := (start, (start + getMatchedLength matcher)%Z) in
                 let ret := hd ret (UTF8_to_UChar32_index s [ret] 1 0) in
                 if gl then (fst ret, (snd ret - (fst ret - 1))%Z) else ret
               else if gl then ((-1)%Z, (-1)%Z)
                    else (NA_INTEGER, NA_INTEGER))))).
  { intros [k|] m; cbn [set_match].
    - rewrite offset_not_done. cbn [negb].
      rewrite store_first by trivial. cbn [bind].
      rewrite store_second by trivial. cbn [bind].
      cbn [UTF8_to_UChar32_index_cells].
      rewrite load_first by trivial. cbn [bind].
      rewrite load_second by trivial. cbn [bind].
      rewrite store_first by trivial. cbn [bind].
      rewrite store_second by trivial. cbn [bind].
      cbn [UTF8_to_UChar32_index map hd fst snd].
      destruct gl; [| reflexivity].
      rewrite load_first by trivial. cbn [bind].
      rewrite load_second by trivial. cbn [bind].
      rewrite store_second by trivial. reflexivity.
    - cbn. destruct gl; [| reflexivity].
      rewrite store_first by trivial. cbn [bind].
      now rewrite store_second by trivial. }
  destruct first.
  - unfold findFirst, findFromPos. apply Hfound.
  - unfold findLast. apply Hfound.
Qed.

Lemma visit_rows
    (sc pc : StriContainerUTF8) (flags : ByteSearchFlags)
    (first gl : bool) (L : nat) (order : list nat) :
  forall tab,
    length tab = L + L ->
    (forall i, In i order -> i < L) ->
    exists tab',
      visit (locate_firstlast_step sc pc flags first gl L) order tab
      = Returns tab'
      /\ length tab' = L + L
      /\ forall c, c < L ->
           (In c order ->
            nth_error tab' c
            = Some (Some (fst (locate_firstlast_row sc pc flags first gl c)))
            /\ nth_error tab' (c + L)
               = Some (Some (snd (locate_firstlast_row sc pc flags first gl c))))
           /\ (~ In c order ->
               nth_error tab' c = nth_error tab c
               /\ nth_error tab' (c + L) = nth_error tab (c + L)).
Proof.
  induction order as [|i rest IH]; intros tab Hlen Hbound.
  - exists tab. repeat split; trivial; easy.
  - assert (Hi : i < L) by (apply Hbound; now left).
    cbn [visit]. rewrite locate_firstlast_step_row by trivial. cbn [bind].
    set (row := locate_firstlast_row sc pc flags first gl) in *.
    set (T1 := upd (upd tab i (fst (row i))) (i + L) (snd (row i))).
    destruct (IH T1) as (tab' & Hv & Hl & Hcells).
    { unfold T1. now rewrite !length_upd. }
    { intros x Hx. apply Hbound. now right. }
    exists tab'. split; [exact Hv |]. split; [exact Hl |].
    intros c Hc. destruct (Hcells c Hc) as [Hin Hout].
    assert (HT1 : nth_error T1 i = Some (Some (fst (row i)))
                  /\ nth_error T1 (i + L) = Some (Some (snd (row i)))).
    { unfold T1. split.
      - rewrite nth_error_upd_neq by lia. apply nth_error_upd_eq. lia.
      - apply nth_error_upd_eq. rewrite length_upd. lia. }
    destruct (in_dec Nat.eq_dec c rest) as [Hr | Hr]; split.
    + intros _. now apply Hin.
    + intros Hn. destruct Hn. now right.
    + intros [<- | Hn]; [| easy].
      destruct (Hout Hr) as [E1 E2]. now rewrite E1, E2.
    + intros Hn. assert (i <> c) by (intros ->; apply Hn; now left).
      destruct (Hout Hr) as [E1 E2]. rewrite E1, E2. unfold T1.
      now rewrite !nth_error_upd_neq by lia.
Qed.

Lemma nth_error_layout (rows : matrix) (c : nat) :
  nth_error (layout rows) c =
  if c <? length rows then option_map (fun r => Some (fst r)) (nth_error rows c)
  else option_map (fun r => Some (snd r)) (nth_error rows (c - length rows)).
Proof.
  unfold layout. rewrite nth_error_map, nth_error_app, length_map.
  destruct (c <? length rows); rewrite nth_error_map;
    now destruct (nth_error rows _).
Qed.

(** X11. The loop of [stri__locate_firstlast_fixed] on the memory of the
    result matrix: whatever the order in which the indices below the
    vectorised length are visited, and however often, no access leaves the
    allocation, no cell is read before it is written, no cell is left
    unwritten, and the matrix holds the starts in its first column and the
    ends or lengths in its second column. *)
Theorem firstlast_matrix_is_filled_by_columns
    (order : nat -> list nat)
    (str pattern : list (option bytes)) (opts : opts_fixed)
    (first gl : bool) :
  (forall L i, In i (order L) <-> i < L) ->
  stri__locate_firstlast_fixed_cells order str pattern opts first gl
  = (rows <- stri__locate_firstlast_fixed str pattern opts first gl ;;
     Returns (layout rows)).
Proof.
  intros Horder.
  unfold stri__locate_firstlast_fixed_cells, stri__locate_firstlast_fixed.
  destruct (stri__recycling_rule true [length str; length pattern])
    as [L| |]; cbn [bind]; trivial.
  set (sc := {| str_data := str; str_nrecycle := L |}).
  set (pc := {| str_data := pattern; str_nrecycle := L |}).
  set (flags := getByteSearchFlags opts false).
  destruct (visit_rows sc pc flags first gl L (order L) (Rf_allocMatrix2 L))
    as (tab' & Hv & Hl & Hcells).
  { unfold Rf_allocMatrix2. apply repeat_length. }
  { intros i. apply Horder. }
  rewrite Hv. f_equal. apply nth_error_ext. intros c.
  rewrite nth_error_layout, length_map, length_seq.
  destruct (Nat.ltb_spec c L) as [Hc | Hc].
  - destruct (Hcells c Hc) as [Hin _].
    rewrite (proj1 (Hin (proj2 (Horder L c) Hc))).
    now rewrite nth_error_map_seq.
  - destruct (Nat.lt_ge_cases (c - L) L) as [Hc' | Hc'].
    + destruct (Hcells (c - L) Hc') as [Hin _].
      pose proof (proj2 (Hin (proj2 (Horder L (c - L)) Hc'))) as E.
      replace (c - L + L) with c in E by lia. rewrite E.
      now rewrite nth_error_map_seq.
    + rewrite (proj2 (nth_error_None tab' c)) by lia.
      now rewrite (proj2 (nth_error_None _ (c - L)))
        by (rewrite length_map, length_seq; lia).
Qed.

Lemma firstlast_matrix_is_filled_by_columns_witness :
  stri__locate_firstlast_fixed_cells (fun L => rev (seq 0 L))
    [Some abcabc; Some xyz] [Some bc] no_overlap true false
  = (rows <- stri__locate_firstlast_fixed
               [Some abcabc; Some xyz] [Some bc] no_overlap true false ;;
     Returns (layout rows)).
Proof.
  apply (firstlast_matrix_is_filled_by_columns (fun L => rev (seq 0 L))).
  intros L i. rewrite <- in_rev, in_seq. lia.
Defined.

(** ** Recycling by hand *)

Lemma length_recycle (v : list (option bytes)) (L : nat) :
  length (recycle v L) = L.
Proof. unfold recycle. now rewrite length_map, length_seq. Qed.

Lemma nth_recycle (v : list (option bytes)) (L i : nat) :
  i < L -> nth i (recycle v L) None = nth (i mod length v) v None.
Proof.
  intros Hi. apply nth_error_nth. unfold recycle.
  now rewrite (nth_error_map_seq (fun i => nth (i mod length v) v None)).
Qed.

Lemma recycling_rule_same (L : nat) :
  stri__recycling_rule true [L; L] = Returns L.
Proof.
  rewrite recycling_rule_two, Nat.max_id, Nat.min_id, orb_diag.
  destruct (Nat.eqb_spec L 0) as [-> | HL]; [reflexivity |].
  now rewrite Nat.Div0.mod_same.
Qed.

Lemma str_get_recycle (v : list (option bytes)) (L i : nat) :
  i < L ->
  str_get {| str_data := recycle v L; str_nrecycle := L |} i
  = str_get {| str_data := v; str_nrecycle := L |} i.
Proof.
  intros Hi. change (str_get (vec (recycle v L) L) i = str_get (vec v L) i).
  rewrite !str_get_vec, length_recycle.
  rewrite Nat.mod_small by trivial. now apply nth_recycle.
Qed.

(** X12. Recycling is repetition: when a call returns [L] records, the
    same call on the two arguments repeated by hand to [L] elements each
    returns the same result, for first, last and all. *)
Theorem recycling_is_repetition
    (str pattern : list (option bytes)) (opts : opts_fixed) (omit gl : bool)
    (rf : matrix) :
  stri_locate_first_fixed str pattern opts gl = Returns rf ->
  let L := length rf in
  stri_locate_first_fixed (recycle str L) (recycle pattern L) opts gl
  = Returns rf
  /\ stri_locate_last_fixed (recycle str L) (recycle pattern L) opts gl
     = stri_locate_last_fixed str pattern opts gl
  /\ stri_locate_all_fixed (recycle str L) (recycle pattern L) omit opts gl
     = stri_locate_all_fixed str pattern omit opts gl.
Proof.
  intros Hf L.
  destruct (firstlast_returns _ _ _ _ _ _ Hf) as (L' & HL & Ef).
  assert (L = L') by (unfold L; now rewrite Ef, length_map, length_seq).
  subst L'. rewrite <- Hf.
  unfold stri_locate_first_fixed, stri_locate_last_fixed,
    stri__locate_firstlast_fixed, stri_locate_all_fixed.
  rewrite !length_recycle, recycling_rule_same, HL. cbn [bind].
  assert (Hrow : forall first,
    map (locate_firstlast_row
           {| str_data := recycle str L; str_nrecycle := L |}
           {| str_data := recycle pattern L; str_nrecycle := L |}
           (getByteSearchFlags opts false) first gl) (seq 0 L)
    = map (locate_firstlast_row
             {| str_data := str; str_nrecycle := L |}
             {| str_data := pattern; str_nrecycle := L |}
             (getByteSearchFlags opts false) first gl) (seq 0 L)).
  { intros first. apply map_ext_in. intros i Hi. apply in_seq in Hi.
    rewrite !locate_firstlast_row_eq.
    now rewrite (str_get_recycle str L i), (str_get_recycle pattern L i)
      by lia. }
  rewrite !Hrow. repeat split. f_equal.
  apply map_ext_in. intros i Hi. apply in_seq in Hi.
  apply locate_all_element_ext.
  - apply (str_get_recycle str L i). lia.
  - apply (str_get_recycle pattern L i). lia.
Qed.

Lemma recycling_is_repetition_witness :
  stri_locate_first_fixed
    (recycle [Some abcabc; Some xyz; Some aaaa] 3) (recycle [Some bc] 3)
    no_overlap false
  = Returns [(2, 3); (NA_INTEGER, NA_INTEGER); (NA_INTEGER, NA_INTEGER)]%Z.
Proof.
  apply (recycling_is_repetition [Some abcabc; Some xyz; Some aaaa]
           [Some bc] no_overlap false false
           [(2, 3); (NA_INTEGER, NA_INTEGER); (NA_INTEGER, NA_INTEGER)]%Z).
  reflexivity.
Defined.

(** ** The matrix of one element of all in memory *)

Section VisitPairs.

(** A loop over the rows of a two-column matrix of [n] rows whose round for
    row [j] reads at most the two cells of the row and writes both. *)
Variable n : nat.
Variable step : cells -> nat -> outcome cells.
Variable h : nat -> option (option Z) -> option (option Z) -> option (Z * Z).
Hypothesis Hstep :
  forall tab j, length tab = n + n -> j < n ->
    step tab j =
    match h j (nth_error tab j) (nth_error tab (j + n)) with
    | Some ab => Returns (upd (upd tab j (fst ab)) (j + n) (snd ab))
    | None => Undefined
    end.
Variable f : nat -> Z * Z.

Lemma visit_pairs (order : list nat) :
  NoDup order ->
  forall tab,
    length tab = n + n ->
    (forall j, In j order ->
       j < n /\ h j (nth_error tab j) (nth_error tab (j + n)) = Some (f j)) ->
    exists tab',
      visit step order tab = Returns tab'
      /\ length tab' = n + n
      /\ forall c, c < n ->
           (In c order ->
            nth_error tab' c = Some (Some (fst (f c)))
            /\ nth_error tab' (c + n) = Some (Some (snd (f c))))
           /\ (~ In c order ->
               nth_error tab' c = nth_error tab c
               /\ nth_error tab' (c + n) = nth_error tab (c + n)).
Proof.
  induction 1 as [|i rest Hni Hnd IH]; intros tab Hlen Hpre.
  - exists tab. repeat split; trivial; easy.
  - destruct (Hpre i (or_introl eq_refl)) as [Hi Hh].
    cbn [visit]. rewrite Hstep, Hh by trivial. cbn [bind].
    set (T1 := upd (upd tab i (fst (f i))) (i + n) (snd (f i))).
    assert (Hkeep : forall c, c < n -> c <> i ->
              nth_error T1 c = nth_error tab c
              /\ nth_error T1 (c + n) = nth_error tab (c + n)).
    { intros c Hc Hci. unfold T1. now rewrite !nth_error_upd_neq by lia. }
    destruct (IH T1) as (tab' & Hv & Hl & Hcells).
    { unfold T1. now rewrite !length_upd. }
    { intros j Hj. destruct (Hpre j (or_intror Hj)) as [Hjn Hhj].
      split; [exact Hjn |].
      assert (j <> i) by (intros ->; now apply Hni).
      destruct (Hkeep j Hjn) as [E1 E2]; trivial. now rewrite E1, E2. }
    exists tab'. split; [exact Hv |]. split; [exact Hl |].
    intros c Hc. destruct (Hcells c Hc) as [Hin Hout].
    destruct (in_dec Nat.eq_dec c rest) as [Hr | Hr]; split.
    + intros _. now apply Hin.
    + intros Hn. destruct Hn. now right.
    + intros [<- | Hn]; [| easy].
      destruct (Hout Hr) as [E1 E2]. rewrite E1, E2. unfold T1. split.
      * rewrite nth_error_upd_neq by lia. apply nth_error_upd_eq. lia.
      * apply nth_error_upd_eq. rewrite length_upd. lia.
    + intros Hn. assert (c <> i) by (intros ->; apply Hn; now left).
      destruct (Hout Hr) as [E1 E2]. rewrite E1, E2. now apply Hkeep.
Qed.

Lemma visit_all_pairs (tab : cells) :
  length tab = n + n ->
  (forall j, j < n ->
     h j (nth_error tab j) (nth_error tab (j + n)) = Some (f j)) ->
  visit step (seq 0 n) tab = Returns (layout (map f (seq 0 n))).
Proof.
  intros Hlen Hpre.
  destruct (visit_pairs (seq 0 n) (seq_NoDup n 0) tab Hlen)
    as (tab' & Hv & Hl & Hcells).
  { intros j Hj. apply in_seq in Hj. split; [lia | apply Hpre; lia]. }
  rewrite Hv. f_equal. apply nth_error_ext. intros c.
  rewrite nth_error_layout, length_map, length_seq.
  assert (Hin : forall x, x < n -> In x (seq 0 n))
    by (intros x Hx; apply in_seq; lia).
  destruct (Nat.ltb_spec c n) as [Hc | Hc].
  - destruct (Hcells c Hc) as [Hc1 _].
    rewrite (proj1 (Hc1 (Hin c Hc))). now rewrite nth_error_map_seq.
  - destruct (Nat.lt_ge_cases (c - n) n) as [Hc' | Hc'].
    + destruct (Hcells (c - n) Hc') as [Hc1 _].
      pose proof (proj2 (Hc1 (Hin _ Hc'))) as E.
      replace (c - n + n) with c in E by lia. rewrite E.
      now rewrite nth_error_map_seq.
    + rewrite (proj2 (nth_error_None tab' c)) by lia.
      now rewrite (proj2 (nth_error_None _ (c - n)))
        by (rewrite length_map, length_seq; lia).
Qed.

End VisitPairs.

Lemma bind_assoc {A B C : Type} (o : outcome A) (k : A -> outcome B)
    (k' : B -> outcome C) :
  bind (bind o k) k' = bind o (fun x => bind (k x) k').
Proof. now destruct o. Qed.

Lemma skipn_cons_inv {A : Type} (l : list A) (j : nat) (x : A)
    (rest : list A) :
  skipn j l = x :: rest -> nth_error l j = Some x /\ skipn (S j) l = rest.
Proof.
  revert l; induction j as [|j IH]; intros [|y l] H; simpl in *;
    try discriminate.
  - injection H as -> ->. now split.
  - destruct (IH l H) as [E1 E2]. split; [exact E1 | exact E2].
Qed.

Lemma map_seq_nth {A B : Type} (g : A -> B) (l : list A) (d : A) :
  map (fun j => g (nth j l d)) (seq 0 (length l)) = map g l.
Proof.
  apply nth_error_ext. intros c. rewrite !nth_error_map, nth_error_seq.
  destruct (Nat.ltb_spec c (length l)) as [Hc | Hc]; simpl.
  - now rewrite (nth_error_nth' l d Hc).
  - now rewrite (proj2 (nth_error_None l c)) by lia.
Qed.

Lemma length_layout (rows : matrix) :
  length (layout rows) = length rows + length rows.
Proof. unfold layout. now rewrite length_map, length_app, !length_map. Qed.

Lemma layout_row (rows : matrix) (j : nat) (d : Z * Z) :
  j < length rows ->
  nth_error (layout rows) j = Some (Some (fst (nth j rows d)))
  /\ nth_error (layout rows) (j + length rows)
     = Some (Some (snd (nth j rows d))).
Proof.
  intros Hj. rewrite !nth_error_layout.
  destruct (Nat.ltb_spec j (length rows)); [| lia].
  destruct (Nat.ltb_spec (j + length rows) (length rows)); [lia |].
  replace (j + length rows - length rows) with j by lia.
  now rewrite (nth_error_nth' rows d Hj).
Qed.

Lemma upd_same_value (tab : cells) (idx : nat) (v : Z) :
  nth_error tab idx = Some (Some v) -> upd tab idx v = tab.
Proof.
  revert idx; induction tab as [|c t IH]; intros [|idx] H; simpl in *;
    try discriminate.
  - now injection H as ->.
  - now rewrite IH.
Qed.

Lemma fill_as_visit (occ0 : matrix) (n : nat) :
  forall (occ : matrix) (j : nat) (tab : cells),
    skipn j occ0 = occ ->
    fill_occurrences occ tab j n =
    visit (fun tab j =>
             match nth_error occ0 j with
             | Some m => t <- store tab j (fst m) ;; store t (j + n) (snd m)
             | None => Undefined
             end)
          (seq j (length occ)) tab.
Proof.
  induction occ as [|m rest IH]; intros j tab Hsk; [reflexivity |].
  destruct (skipn_cons_inv occ0 j m rest Hsk) as [Hnth Hrest].
  cbn [fill_occurrences length seq visit]. rewrite Hnth, bind_assoc.
  destruct (store tab j (fst m)) as [t| |]; cbn [bind]; trivial.
  destruct (store t (j + n) (snd m)) as [t'| |]; cbn [bind]; trivial.
  now apply IH.
Qed.

Lemma convert_as_visit (s : bytes) (n : nat) (adj1 adj2 : Z) :
  forall (ni i1 : nat) (tab : cells),
    UTF8_to_UChar32_index_cells s tab i1 (i1 + n) ni adj1 adj2 =
    visit (fun tab j =>
             from <- load tab j ;;
             to <- load tab (j + n) ;;
             t <- store tab j (byte_to_codepoint s from + adj1)%Z ;;
             store t (j + n) (byte_to_codepoint s to + adj2)%Z)
          (seq i1 ni) tab.
Proof.
  induction ni as [|ni IH]; intros i1 tab; [reflexivity |].
  cbn [UTF8_to_UChar32_index_cells seq visit].
  destruct (load tab i1) as [from| |]; cbn [bind]; trivial.
  destruct (load tab (i1 + n)) as [to| |]; cbn [bind]; trivial.
  destruct (store tab i1 _) as [t| |]; cbn [bind]; trivial.
  destruct (store t (i1 + n) _) as [t'| |]; cbn [bind]; trivial.
Qed.

Lemma lengths_as_visit (n : nat) :
  forall (rounds j : nat) (tab : cells),
    lengths_in_place tab j rounds n =
    visit (fun tab j =>
             from <- load tab j ;;
             to <- load tab (j + n) ;;
             store tab (j + n) (to - (from - 1))%Z)
          (seq j rounds) tab.
Proof.
  induction rounds as [|rounds IH]; intros j tab; [reflexivity |].
  cbn [lengths_in_place seq visit].
  destruct (load tab j) as [from| |]; cbn [bind]; trivial.
  destruct (load tab (j + n)) as [to| |]; cbn [bind]; trivial.
  destruct (store tab (j + n) _) as [t| |]; cbn [bind]; trivial.
Qed.

(** The matrix built from the occurrences: no access outside the
    allocation, no read of an unwritten cell, and in the end the converted
    rows, by columns. *)
Lemma locate_all_matrix_cells_layout (s : bytes) (occ : matrix) (gl : bool) :
  locate_all_matrix_cells s occ gl =
  Returns (layout
             (let ans := UTF8_to_UChar32_index s occ 1 0 in
              if gl
              then map (fun row => (fst row, (snd row - (fst row - 1))%Z)) ans
              else ans)).
Proof.
  unfold locate_all_matrix_cells. set (n := length occ).
  (* the occurrences are copied *)
  rewrite (fill_as_visit occ n occ 0) by reflexivity. fold n.
  match goal with |- context [visit ?st _ _] => set (step := st) end.
  pose (h := fun j (_ _ : option (option Z)) => nth_error occ j).
  assert (Hfill : forall tab j, length tab = n + n -> j < n ->
    step tab j =
    match h j (nth_error tab j) (nth_error tab (j + n)) with
    | Some ab => Returns (upd (upd tab j (fst ab)) (j + n) (snd ab))
    | None => Undefined
    end).
  { intros tab j Hlen Hj. unfold step, h.
    destruct (nth_error occ j) as [m|]; trivial.
    apply store_both; lia. }
  rewrite (visit_all_pairs n step h Hfill (fun j => nth j occ (0, 0)%Z)).
  2:{ unfold Rf_allocMatrix2. apply repeat_length. }
  2:{ intros j Hj. unfold h. now apply nth_error_nth'. }
  clear step h Hfill. cbn [bind]. unfold n at 1.
  rewrite (map_seq_nth (fun r => r) occ), map_id.
  (* the offsets are converted *)
  rewrite (convert_as_visit s n 1 0 n 0).
  match goal with |- context [visit ?st _ _] => set (step := st) end.
  pose (h := fun (_ : nat) (u v : option (option Z)) =>
               match u, v with
               | Some (Some a), Some (Some b) =>
                   Some ((byte_to_codepoint s a + 1)%Z,
                         (byte_to_codepoint s b + 0)%Z)
               | _, _ => None
               end).
  assert (Hconv : forall tab j, length tab = n + n -> j < n ->
    step tab j =
    match h j (nth_error tab j) (nth_error tab (j + n)) with
    | Some ab => Returns (upd (upd tab j (fst ab)) (j + n) (snd ab))
    | None => Undefined
    end).
  { intros tab j Hlen Hj. unfold step, h, load.
    destruct (nth_error tab j) as [[a|]|]; cbn [bind]; trivial;
      destruct (nth_error tab (j + n)) as [[b|]|]; cbn [bind]; trivial.
    apply store_both; lia. }
  rewrite (visit_all_pairs n step h Hconv
             (fun j =>
                ((byte_to_codepoint s (fst (nth j occ (0, 0)%Z)) + 1)%Z,
                 (byte_to_codepoint s (snd (nth j occ (0, 0)%Z)) + 0)%Z))).
  2:{ apply length_layout. }
  2:{ intros j Hj. unfold h.
      destruct (layout_row occ j (0, 0)%Z Hj) as [E1 E2]. fold n in E2.
      now rewrite E1, E2. }
  clear step h Hconv. cbn [bind].
  set (ans := UTF8_to_UChar32_index s occ 1 0).
  assert (Hmap :
    map (fun j =>
           ((byte_to_codepoint s (fst (nth j occ (0, 0)%Z)) + 1)%Z,
            (byte_to_codepoint s (snd (nth j occ (0, 0)%Z)) + 0)%Z))
        (seq 0 n) = ans).
  { unfold n.
    apply (map_seq_nth
             (fun r => ((byte_to_codepoint s (fst r) + 1)%Z,
                        (byte_to_codepoint s (snd r) + 0)%Z)) occ). }
  rewrite Hmap.
  assert (Hans : length ans = n)
    by (unfold ans, UTF8_to_UChar32_index; apply length_map).
  cbv zeta. destruct gl; [| reflexivity].
  (* the ends are turned into lengths *)
  rewrite (lengths_as_visit n n 0).
  match goal with |- context [visit ?st _ _] => set (step := st) end.
  pose (h := fun (_ : nat) (u v : option (option Z)) =>
               match u, v with
               | Some (Some a), Some (Some b) => Some (a, (b - (a - 1))%Z)
               | _, _ => None
               end).
  assert (Hlens : forall tab j, length tab = n + n -> j < n ->
    step tab j =
    match h j (nth_error tab j) (nth_error tab (j + n)) with
    | Some ab => Returns (upd (upd tab j (fst ab)) (j + n) (snd ab))
    | None => Undefined
    end).
  { intros tab j Hlen Hj. unfold step, h, load.
    destruct (nth_error tab j) as [[a|]|] eqn:Ea; cbn [bind]; trivial;
      destruct (nth_error tab (j + n)) as [[b|]|]; cbn [bind]; trivial.
    cbn [fst snd]. rewrite (upd_same_value tab j a Ea).
    apply store_in_bounds. lia. }
  rewrite (visit_all_pairs n step h Hlens
             (fun j =>
                (fst (nth j ans (0, 0)%Z),
                 (snd (nth j ans (0, 0)%Z)
                  - (fst (nth j ans (0, 0)%Z) - 1))%Z))).
  2:{ rewrite length_layout. lia. }
  2:{ intros j Hj. unfold h. rewrite <- Hans in Hj.
      destruct (layout_row ans j (0, 0)%Z Hj) as [E1 E2].
      rewrite Hans in E2. now rewrite E1, E2. }
  rewrite <- Hans.
  now rewrite (map_seq_nth
                 (fun r => (fst r, (snd r - (fst r - 1))%Z)) ans).
Qed.

(** X13. The matrix that [stri_locate_all_fixed] stores for an element,
    in memory: the three loops over its rows stay inside the allocation,
    read no cell before it is written and leave none unwritten, and the
    matrix holds the starts in its first column and the ends or lengths
    in its second column. *)
Theorem all_matrix_is_filled_by_columns
    (sc pc : StriContainerUTF8) (flags : ByteSearchFlags)
    (omit gl : bool) (i : nat) :
  locate_all_element_cells sc pc flags omit gl i
  = Returns (layout (locate_all_element sc pc flags omit gl i)).
Proof.
  unfold locate_all_element_cells, locate_all_element,
    STRI__CONTINUE_ON_EMPTY_OR_NA_STR_PATTERN.
  destruct (str_get sc i) as [s|]; [| reflexivity].
  destruct (str_get pc i) as [p|]; [| reflexivity].
  destruct (length p =? 0); [reflexivity |].
  destruct (findFirst (reset (getMatcher p flags) s)) as [start m].
  destruct (start =? USEARCH_DONE)%Z; [reflexivity |].
  apply locate_all_matrix_cells_layout.
Qed.

(** ** Sentinels and bounds *)

Lemma reported_bounds (gl : bool) (s p : bytes) (k : nat) :
  occurs_at p s k ->
  (1 <= fst (reported gl s p k))%Z /\
  (0 <= snd (reported gl s p k))%Z /\
  (gl = false ->
   (snd (reported gl s p k) <= Z.of_nat (count_leads s))%Z).
Proof.
  intros Hocc. rewrite reported_count by trivial. cbv zeta.
  assert (Hle : count_leads (firstn (k + length p) s) <= count_leads s).
  { destruct (Nat.le_gt_cases (k + length p) (length s)) as [H | H].
    - rewrite <- (firstn_all s) at 2. now apply count_leads_firstn_le.
    - rewrite firstn_all2 by lia. lia. }
  rewrite firstn_plus, count_leads_app in Hle.
  unfold occurs_at in Hocc. rewrite Hocc in Hle.
  destruct gl; cbn [fst snd]; repeat split; try lia; discriminate.
Qed.

Lemma firstlast_record_NA_iff (first : bool) (x y : option bytes) :
  firstlast_record first true x y = NA_record <-> x = None \/ y = None.
Proof.
  unfold firstlast_record. split.
  - destruct x as [s|]; [| now left]. destruct y as [p|]; [| now right].
    destruct (length p =? 0) eqn:E; [discriminate |].
    apply length_zero_nil in E.
    destruct (if first then scan_forward p s 0 else scan_backward p s 0)
      as [k|] eqn:Ek; [| discriminate].
    intros H. pose proof (firstlast_found_occurs first s p k E Ek) as Hocc.
    pose proof (reported_not_sentinel true s p k Hocc) as Hn.
    assert (Hs : is_sentinel NA_record = false) by (rewrite <- H; exact Hn).
    discriminate Hs.
  - intros [-> | ->]; [reflexivity | now destruct x].
Qed.

Lemma locate_all_element_NA_iff
    (sc pc : StriContainerUTF8) (flags : ByteSearchFlags) (omit : bool)
    (i : nat) :
  locate_all_element sc pc flags omit true i = [NA_record]
  <-> str_get sc i = None \/ str_get pc i = None.
Proof.
  pose proof (locate_all_element_cases sc pc flags i) as H.
  destruct (str_get sc i) as [s|]; [| rewrite H; split; [now left | trivial]].
  destruct (str_get pc i) as [p|]; [| rewrite H; split; [now right | trivial]].
  assert (Hno : no_match_rows omit true <> [NA_record])
    by (unfold no_match_rows; destruct omit; discriminate).
  split; [| intros [E | E]; discriminate E].
  intros Heq. exfalso.
  destruct (length p =? 0) eqn:E; [rewrite H in Heq; now apply Hno |].
  destruct H as [[_ H] | (k & rest & Hsw & H)]; rewrite H in Heq;
    [now apply Hno |].
  apply sweep_occurs in Hsw. inversion Hsw as [| k' r' Hocc _]; subst.
  pose proof (reported_not_sentinel true s p k Hocc) as Hn.
  assert (Hh : reported true s p k = NA_record)
    by (cbn [map] in Heq; congruence).
  assert (Hs : is_sentinel NA_record = false) by (rewrite <- Hh; exact Hn).
  discriminate Hs.
Qed.

(** X14. In length mode [NA] tells a missing input from a failed search:
    at every index the record of first, the record of last and the element
    of all are the [NA] record exactly when the subject or the pattern is
    [NA]. *)
Theorem length_mode_NA_means_missing_input
    (str pattern : list (option bytes)) (opts : opts_fixed) (omit : bool)
    (rf rl : matrix) (ra : list matrix) (i : nat) :
  stri_locate_first_fixed str pattern opts true = Returns rf ->
  stri_locate_last_fixed str pattern opts true = Returns rl ->
  stri_locate_all_fixed str pattern omit opts true = Returns ra ->
  i < length rf ->
  let missing :=
    nth (i mod length str) str None = None
    \/ nth (i mod length pattern) pattern None = None in
  (nth_error rf i = Some (NA_INTEGER, NA_INTEGER) <-> missing)
  /\ (nth_error rl i = Some (NA_INTEGER, NA_INTEGER) <-> missing)
  /\ (nth_error ra i = Some [(NA_INTEGER, NA_INTEGER)] <-> missing).
Proof.
  intros Hf Hl Ha Hi missing.
  destruct (firstlast_returns _ _ _ _ _ _ Hf) as (L & HL & Ef).
  destruct (firstlast_returns _ _ _ _ _ _ Hl) as (L1 & HL1 & El).
  destruct (all_returns _ _ _ _ _ _ Ha) as (L2 & HL2 & Ea).
  rewrite HL in HL1, HL2. injection HL1 as <-. injection HL2 as <-.
  assert (HiL : i < L) by (rewrite Ef, length_map, length_seq in Hi; lia).
  rewrite Ef, El, Ea, !nth_error_map_seq by trivial.
  change (NA_INTEGER, NA_INTEGER) with NA_record.
  repeat split.
  - intros [= E]. now apply firstlast_record_NA_iff in E.
  - intros E. f_equal. now apply firstlast_record_NA_iff.
  - intros [= E]. now apply firstlast_record_NA_iff in E.
  - intros E. f_equal. now apply firstlast_record_NA_iff.
  - intros [= E]. apply locate_all_element_NA_iff in E.
    now rewrite !str_get_vec in E.
  - intros E. f_equal. apply locate_all_element_NA_iff.
    now rewrite !str_get_vec.
Qed.

Lemma length_mode_NA_means_missing_input_witness :
  (nth_error [(2, 2); (-1, -1)]%Z 1 = Some (NA_INTEGER, NA_INTEGER)
   <-> Some xyz = None \/ Some bc = None)
  /\ (nth_error [(5, 2); (-1, -1)]%Z 1 = Some (NA_INTEGER, NA_INTEGER)
      <-> Some xyz = None \/ Some bc = None)
  /\ (nth_error [[(2, 2); (5, 2)]; [(-1, -1)]]%Z 1
      = Some [(NA_INTEGER, NA_INTEGER)]
      <-> Some xyz = None \/ Some bc = None).
Proof.
  apply (length_mode_NA_means_missing_input [Some abcabc; Some xyz]
           [Some bc] no_overlap false _ _ _ 1);
    solve [reflexivity | simpl; lia].
Defined.

Lemma firstlast_record_inside (first : bool) (x y : option bytes) :
  let r := firstlast_record first false x y in
  r = NA_record \/
  exists s, x = Some s /\
            (1 <= fst r)%Z /\ (0 <= snd r <= Z.of_nat (count_leads s))%Z.
Proof.
  cbv zeta. unfold firstlast_record.
  destruct x as [s|]; [| now left]. destruct y as [p|]; [| now left].
  destruct (length p =? 0) eqn:E; [now left |].
  apply length_zero_nil in E.
  destruct (if first then scan_forward p s 0 else scan_backward p s 0)
    as [k|] eqn:Ek; [| now left].
  right. exists s. split; [reflexivity |].
  pose proof (firstlast_found_occurs first s p k E Ek) as Hocc.
  destruct (reported_bounds false s p k Hocc) as (H1 & H2 & H3).
  specialize (H3 eq_refl). lia.
Qed.

Lemma locate_all_element_inside
    (sc pc : StriContainerUTF8) (flags : ByteSearchFlags) (omit : bool)
    (i : nat) (r : Z * Z) :
  In r (locate_all_element sc pc flags omit false i) ->
  r = NA_record \/
  exists s, str_get sc i = Some s /\
            (1 <= fst r)%Z /\ (0 <= snd r <= Z.of_nat (count_leads s))%Z.
Proof.
  intros Hin. pose proof (locate_all_element_cases sc pc flags i) as H.
  assert (Hsent : In r (no_match_rows omit false) \/ In r [NA_record] ->
                  r = NA_record).
  { unfold no_match_rows, not_found, NA_record. destruct omit; simpl;
      intuition congruence. }
  destruct (str_get sc i) as [s|];
    [| rewrite H in Hin; left; apply Hsent; now right].
  destruct (str_get pc i) as [p|];
    [| rewrite H in Hin; left; apply Hsent; now right].
  destruct (length p =? 0) eqn:E;
    [rewrite H in Hin; left; apply Hsent; now left |].
  destruct H as [[_ H] | (k & rest & Hsw & H)]; rewrite H in Hin;
    [left; apply Hsent; now left |].
  right. exists s. split; [reflexivity |].
  apply in_map_iff in Hin. destruct Hin as (j & <- & Hj).
  apply sweep_occurs in Hsw. rewrite Forall_forall in Hsw.
  destruct (reported_bounds false s p j (Hsw j Hj)) as (H1 & H2 & H3).
  specialize (H3 eq_refl). lia.
Qed.

(** X15. In position mode every record of first, of last and of all is
    the [NA] record or lies inside its subject: the start is at least 1
    and the end is at most the number of code points that start in the
    subject; so [-1] never appears in position mode. *)
Theorem position_mode_records_lie_inside_the_subject
    (str pattern : list (option bytes)) (opts : opts_fixed) (omit : bool)
    (rf rl : matrix) (ra : list matrix) (i : nat) (r : Z * Z) :
  stri_locate_first_fixed str pattern opts false = Returns rf ->
  stri_locate_last_fixed str pattern opts false = Returns rl ->
  stri_locate_all_fixed str pattern omit opts false = Returns ra ->
  nth_error rf i = Some r \/ nth_error rl i = Some r
    \/ (exists m, nth_error ra i = Some m /\ In r m) ->
  r = (NA_INTEGER, NA_INTEGER) \/
  exists s,
    nth (i mod length str) str None = Some s /\
    (1 <= fst r)%Z /\ (0 <= snd r <= Z.of_nat (count_leads s))%Z.
Proof.
  intros Hf Hl Ha Hr.
  destruct (firstlast_returns _ _ _ _ _ _ Hf) as (L & HL & Ef).
  destruct (firstlast_returns _ _ _ _ _ _ Hl) as (L1 & HL1 & El).
  destruct (all_returns _ _ _ _ _ _ Ha) as (L2 & HL2 & Ea).
  rewrite HL in HL1, HL2. injection HL1 as <-. injection HL2 as <-.
  assert (Hbound : forall (A : Type) (f : nat -> A) (x : A),
            nth_error (map f (seq 0 L)) i = Some x -> x = f i).
  { intros A f x Hx.
    assert (Hne : nth_error (map f (seq 0 L)) i <> None) by congruence.
    apply nth_error_Some in Hne. rewrite length_map, length_seq in Hne.
    rewrite nth_error_map_seq in Hx by trivial. congruence. }
  change (NA_INTEGER, NA_INTEGER) with NA_record.
  destruct Hr as [Hr | [Hr | (m & Hm & Hin)]].
  - rewrite Ef in Hr. apply Hbound in Hr. subst r.
    apply firstlast_record_inside.
  - rewrite El in Hr. apply Hbound in Hr. subst r.
    apply firstlast_record_inside.
  - rewrite Ea in Hm. apply Hbound in Hm. subst m.
    apply locate_all_element_inside in Hin.
    now rewrite str_get_vec in Hin.
Qed.

Lemma position_mode_records_lie_inside_the_subject_witness :
  (5, 6)%Z = (NA_INTEGER, NA_INTEGER) \/
  exists s,
    Some abcabc = Some s /\
    (1 <= 5)%Z /\ (0 <= 6 <= Z.of_nat (count_leads s))%Z.
Proof.
  apply (position_mode_records_lie_inside_the_subject
           [Some abcabc; Some xyz] [Some bc] no_overlap false
           [(2, 3); (NA_INTEGER, NA_INTEGER)]%Z
           [(5, 6); (NA_INTEGER, NA_INTEGER)]%Z
           [[(2, 3); (5, 6)]; [(NA_INTEGER, NA_INTEGER)]]%Z 0 (5, 6)%Z);
    try reflexivity.
  right. left. reflexivity.
Defined.
